(** * Slurdle: the scoring function, the keyboard tracker and the session
    state machine of [wordle/website.py], embedded in Rocq.

    Python values are modelled as follows.
    - [str] is [string]; a character is one of the 256 code points that
      [ascii] can hold.  Loops over a string run over [chars s].
    - [int] is [Z].
    - [dict] is [gmap]; [d.get(k, v)] is [dict_get d k v], [d[k]] a lookup
      that fails on a missing key.
    - [list] is [list]; [l[i]] and [l[i] = v] fail out of range.
    - an exception is [None] in the option monad.

    The script is a Streamlit page: every interaction runs it from the top
    with the values of the widgets, on the session state that the run
    before left.  [run] is one such run.  The word list of a session is
    whatever [load_words] returned when the session began; nothing below
    depends on which words it holds. *)

From stdpp Require Import gmap strings list.
From Stdlib Require Import ZArith Ascii.

Local Open Scope Z_scope.

Definition WORD_LENGTH : nat := 5.
Definition MAX_GUESSES : nat := 6.

(** ** Python primitives *)

Definition chars (s : string) : list ascii := String.list_ascii_of_string s.

Definition dict_get (d : gmap ascii Z) (k : ascii) (dflt : Z) : Z :=
  default dflt (d !! k).

(** [l[i] = v]: IndexError when [i] is not an index of [l]. *)
Definition list_set (l : list Z) (i : nat) (v : Z) : option (list Z) :=
  if decide (i < length l)%nat then Some (<[i:=v]> l) else None.

(** ** wordle_feedback *)

(** First loop: [for i, (g, a) in enumerate(zip(guess, answer))]. *)
Fixpoint first_pass (i : nat) (ga : list (ascii * ascii))
    (result : list Z) (remaining : gmap ascii Z)
    : option (list Z * gmap ascii Z) :=
  match ga with
  | [] => Some (result, remaining)
  | (g, a) :: ga' =>
      if decide (g = a) then
        result' ← list_set result i 2;
        first_pass (S i) ga' result' remaining
      else
        first_pass (S i) ga' result
          (<[a := dict_get remaining a 0 + 1]> remaining)
  end.

(** Second loop: [for i, g in enumerate(guess)]. *)
Fixpoint second_pass (i : nat) (guess : list ascii)
    (result : list Z) (remaining : gmap ascii Z) : option (list Z) :=
  match guess with
  | [] => Some result
  | g :: guess' =>
      r ← result !! i;
      if decide (r ≠ 0) then second_pass (S i) guess' result remaining
      else if decide (dict_get remaining g 0 > 0) then
        result' ← list_set result i 1;
        v ← remaining !! g;
        second_pass (S i) guess' result' (<[g := v - 1]> remaining)
      else second_pass (S i) guess' result remaining
  end.

Definition wordle_feedback (guess answer : string) : option (list Z) :=
  '(result, remaining) ←
     first_pass 0 (zip (chars guess) (chars answer)) (replicate WORD_LENGTH 0) ∅;
  second_pass 0 (chars guess) result remaining.

(** ** update_keyboard *)

(** [for ch, s in zip(guess, fb): kb[ch] = max(kb.get(ch, -1), s)].  The
    dictionary is updated in place; the model returns the updated one. *)
Fixpoint update_keyboard_loop (kb : gmap ascii Z) (gs : list (ascii * Z))
    : gmap ascii Z :=
  match gs with
  | [] => kb
  | (ch, s) :: gs' =>
      update_keyboard_loop (<[ch := Z.max (dict_get kb ch (-1)) s]> kb) gs'
  end.

Definition update_keyboard (kb : gmap ascii Z) (guess : string) (fb : list Z)
    : gmap ascii Z :=
  update_keyboard_loop kb (zip (chars guess) fb).

(** ** Rendering: the classes of the tiles and of the keys *)

Definition STATUS_TO_CLASS : gmap Z string :=
  {[ 0 := "t0"; 1 := "t1"; 2 := "t2" ]}.

(** A tile of the board: its class and the letter of the guess it shows
    (no letter on an empty row).  The HTML around it is left out. *)
Definition tile : Type := string * option ascii.

(** Lines 92-94, one tile per feedback entry.  [STATUS_TO_CLASS[s]] raises
    KeyError on an unknown status, [g[j]] IndexError when the feedback is
    longer than the guess. *)
Definition render_row (g : string) (fb : list Z) : option (list tile) :=
  mapM (λ js : nat * Z,
          cls ← STATUS_TO_CLASS !! js.2;
          ch ← chars g !! js.1;
          Some (cls, Some ch))
       (imap pair fb).

(** [render_board]: the tiles of the [MAX_GUESSES] rows. *)
Definition render_board (guesses : list string) (feedbacks : list (list Z))
    : option (list (list tile)) :=
  mapM (λ i,
          if decide (i < length guesses)%nat then
            g ← guesses !! i;
            fb ← feedbacks !! i;
            render_row g fb
          else Some (replicate WORD_LENGTH ("tE", None)))
       (seq 0 MAX_GUESSES).

(** [cls = "tE" if s is None else STATUS_TO_CLASS[s]] with
    [s = kb.get(ch, None)]. *)
Definition key_class (kb : gmap ascii Z) (ch : ascii) : option string :=
  match kb !! ch with
  | None => Some "tE"
  | Some s => STATUS_TO_CLASS !! s
  end.

Definition keyboard_rows : list string :=
  ["qwertyuiop"; "asdfghjkl"; "zxcvbnm"].

(** [render_keyboard]: the classes of the keys, row by row. *)
Definition render_keyboard (kb : gmap ascii Z) : option (list (list string)) :=
  mapM (λ r, mapM (key_class kb) (chars r)) keyboard_rows.

(** ** Text of the guess box: [.strip().lower()] and the validity test *)

(** [str.isspace] on the code points below 256. *)
Definition isspace (ch : ascii) : bool :=
  let n := N_of_ascii ch in
  ((9 <=? n) && (n <=? 13) || (28 <=? n) && (n <=? 32)
   || (n =? 133) || (n =? 160))%N.

(** [str.lower] on one code point below 256: A-Z and the accented capitals
    U+00C0..U+00DE (without the multiplication sign U+00D7) move up by 32. *)
Definition lower_char (ch : ascii) : ascii :=
  let n := N_of_ascii ch in
  if ((65 <=? n) && (n <=? 90)
      || (192 <=? n) && (n <=? 222) && negb (n =? 215))%N
  then ascii_of_N (n + 32) else ch.

Definition lower (s : string) : string :=
  String.string_of_list_ascii (lower_char <$> chars s).

Fixpoint lstrip (l : list ascii) : list ascii :=
  match l with
  | ch :: l' => if isspace ch then lstrip l' else l
  | [] => []
  end.

Definition strip (s : string) : string :=
  String.string_of_list_ascii (reverse (lstrip (reverse (lstrip (chars s))))).

Definition ascii_lowercase : string := "abcdefghijklmnopqrstuvwxyz".

(** The negation of the test on line 160:
    [len(guess) == WORD_LENGTH and all(ch in string.ascii_lowercase ...)]. *)
Definition valid_guess (guess : string) : bool :=
  bool_decide (String.length guess = WORD_LENGTH)
  && forallb (λ ch, bool_decide (ch ∈ chars ascii_lowercase)) (chars guess).

(** ** Session state *)

(** The keys of [st.session_state].  [_enter_submit] is only ever read with
    [.get("_enter_submit", False)], so a missing key is [false]. *)
Record session := Session {
  words : list string;
  answer : string;
  guesses : list string;
  feedbacks : list (list Z);
  keyboard : gmap ascii Z;
  game_over : bool;
  _enter_submit : bool
}.

(** What the widgets return in one run of the script, and the draw that
    [random.choice] makes in it.  [guess_text] is the content of the guess
    box as typed; the box is declared with [max_chars=WORD_LENGTH], which
    nothing below relies on. *)
Record widgets := Widgets {
  sidebar_restart : bool;
  guess_text : string;
  submit_button : bool;
  play_again : bool;
  rand : nat
}.

(** The branch a run of the script takes. *)
Inductive outcome :=
  | Restarted          (* a restart handler ran *)
  | Idle               (* in progress, nothing submitted *)
  | InvalidGuess       (* line 161 *)
  | InProgress         (* guess recorded, game goes on *)
  | Won                (* line 171 *)
  | Lost               (* line 174 *)
  | SessionTerminated. (* game-over branch: no guess is read *)

(** [random.choice(words)]: IndexError on an empty list, else the word at
    the index drawn. *)
Definition choose_answer (ws : list string) (r : nat) : option string :=
  match ws with
  | [] => None
  | _ => ws !! (r `mod` length ws)%nat
  end.

(** Lines 116-127, on a session state that has no key yet; [ws] is the
    list that [load_words] returned. *)
Definition init (ws : list string) (r : nat) : option session :=
  a ← choose_answer ws r;
  Some (Session ws a [] [] ∅ false false).

(** Lines 133-137 and 183-187. *)
Definition restart (s : session) (r : nat) : option session :=
  a ← choose_answer (words s) r;
  Some (Session (words s) a [] [] ∅ false (_enter_submit s)).

Definition normalize (raw : string) : string := lower (strip raw).

(** Line 149. *)
Definition submitted (s : session) (w : widgets) : bool :=
  submit_button w
  || bool_decide (String.length (normalize (guess_text w)) = WORD_LENGTH)
     && _enter_submit s.

(** Lines 153-156. *)
Definition set_enter_submit (s : session) (w : widgets) : session :=
  Session (words s) (answer s) (guesses s) (feedbacks s) (keyboard s)
    (game_over s)
    (bool_decide (String.length (normalize (guess_text w)) = WORD_LENGTH)
     && negb (submitted s w)).

(** Lines 165-175. *)
Definition process_guess (s : session) (guess : string)
    : option (session * outcome) :=
  fb ← wordle_feedback guess (answer s);
  let guesses' := guesses s ++ [guess] in
  let feedbacks' := feedbacks s ++ [fb] in
  let keyboard' := update_keyboard (keyboard s) guess fb in
  let s' over :=
    Session (words s) (answer s) guesses' feedbacks' keyboard' over
      (_enter_submit s) in
  if decide (guess = answer s) then Some (s' true, Won)
  else if decide (MAX_GUESSES ≤ length guesses')%nat then Some (s' true, Lost)
  else Some (s' (game_over s), InProgress).

(** Lines 147-188. *)
Definition main (s : session) (w : widgets) : option (session * outcome) :=
  if negb (game_over s) then
    let guess := normalize (guess_text w) in
    let s1 := set_enter_submit s w in
    if submitted s w then
      if negb (valid_guess guess) then Some (s1, InvalidGuess)
      else process_guess s1 guess
    else Some (s1, Idle)
  else
    if play_again w then s' ← restart s (rand w); Some (s', Restarted)
    else Some (s, SessionTerminated).

(** One run of the script on an initialised session (lines 132-188), as
    far as the session goes; a run ends at [st.rerun()].  The two render
    calls of lines 144-145 only write to the page; they are [render_board]
    and [render_keyboard] above. *)
Definition run (s : session) (w : widgets) : option (session * outcome) :=
  if sidebar_restart w then s' ← restart s (rand w); Some (s', Restarted)
  else main s w.

(** The two commands of the session: pressing "Submit guess" with [raw] in
    the guess box, and pressing the sidebar's restart button. *)
Definition submitGuess (s : session) (raw : string)
    : option (session * outcome) :=
  run s (Widgets false raw true false 0).

Definition restart_cmd (s : session) (r : nat) : option (session * outcome) :=
  run s (Widgets true "" false false r).

(** A series of submissions, with the outcome of each. *)
Fixpoint submit_all (s : session) (raws : list string)
    : option (session * list outcome) :=
  match raws with
  | [] => Some (s, [])
  | raw :: raws' =>
      '(s1, o) ← submitGuess s raw;
      '(s2, os) ← submit_all s1 raws';
      Some (s2, o :: os)
  end.

(** Sessions that the script can be in: initialised, then any runs. *)
Inductive reachable : session → Prop :=
  | reachable_init ws r s : init ws r = Some s → reachable s
  | reachable_run s w s' o :
      reachable s → run s w = Some (s', o) → reachable s'.

(** A series of [update_keyboard] calls. *)
Definition update_keyboard_all (kb : gmap ascii Z)
    (calls : list (string * list Z)) : gmap ascii Z :=
  foldl (λ kb c, update_keyboard kb c.1 c.2) kb calls.

(** * The scoring function *)

(** ** What the two loops compute, position by position *)

(** The result list after the first loop. *)
Fixpoint mark_greens (ga : list (ascii * ascii)) (result : list Z) : list Z :=
  match ga, result with
  | (g, a) :: ga', r :: result' =>
      (if decide (g = a) then 2 else r) :: mark_greens ga' result'
  | _, _ => result
  end.

(** The counter after the first loop. *)
Fixpoint count_rest (ga : list (ascii * ascii)) (remaining : gmap ascii Z)
    : gmap ascii Z :=
  match ga with
  | [] => remaining
  | (g, a) :: ga' =>
      count_rest ga'
        (if decide (g = a) then remaining
         else <[a := dict_get remaining a 0 + 1]> remaining)
  end.

(** The result list after the second loop. *)
Fixpoint mark_yellows (guess : list ascii) (result : list Z)
    (remaining : gmap ascii Z) : list Z :=
  match guess, result with
  | g :: guess', r :: result' =>
      if decide (r ≠ 0) then r :: mark_yellows guess' result' remaining
      else if decide (dict_get remaining g 0 > 0) then
        1 :: mark_yellows guess' result'
               (<[g := dict_get remaining g 0 - 1]> remaining)
      else r :: mark_yellows guess' result' remaining
  | _, _ => result
  end.

(** ** Closed form of the feedback, counts of marks, and sample sessions *)

(** The feedback in closed form; valid whenever the guess is not longer
    than [WORD_LENGTH]. *)
Definition feedback_of (guess answer : list ascii) : list Z :=
  let ga := zip guess answer in
  mark_yellows guess (mark_greens ga (replicate WORD_LENGTH 0))
    (count_rest ga ∅).

Definition count {A} (P : A → Prop) `{!∀ x, Decision (P x)} (l : list A) : nat :=
  length (filter P l).

(** How often letter [c] occurs in a word. *)
Definition occurrences (c : ascii) (w : list ascii) : nat :=
  count (λ x, x = c) w.

(** Positions of the guess that hold [c] and are marked Present or Correct. *)
Definition marked (c : ascii) (guess : list ascii) (fb : list Z) : nat :=
  count (λ p, p.1 = c ∧ p.2 ≠ 0) (zip guess fb).

(** Positions of the guess that hold [c] and are marked Absent. *)
Definition absent (c : ascii) (guess : list ascii) (fb : list Z) : nat :=
  count (λ p, p.1 = c ∧ p.2 = 0) (zip guess fb).

(** Positions where guess and answer both hold [c], where only the guess
    does, and where only the answer does. *)
Definition matched (c : ascii) (ga : list (ascii * ascii)) : nat :=
  count (λ p, p.1 = c ∧ p.2 = c) ga.
Definition guess_only (c : ascii) (ga : list (ascii * ascii)) : nat :=
  count (λ p, p.1 = c ∧ p.2 ≠ c) ga.
Definition answer_only (c : ascii) (ga : list (ascii * ascii)) : nat :=
  count (λ p, p.1 ≠ c ∧ p.2 = c) ga.

Definition is_code (s : Z) : Prop := s = 0 ∨ s = 1 ∨ s = 2.

Definition codes_only (kb : gmap ascii Z) : Prop :=
  map_Forall (λ _ v, is_code v) kb.

Definition demo_words : list string := ["crane"; "slate"; "brick"].

(** A session that has just been initialised with the answer "crane". *)
Definition demo_fresh : session := Session demo_words "crane" [] [] ∅ false false.

(** The same session after the five misses "trace", "slate", "brine",
    "crown" and "crate". *)
Definition demo_last_turn : session :=
  Session demo_words "crane"
    ["trace"; "slate"; "brine"; "crown"; "crate"]
    [[0; 2; 2; 1; 2]; [0; 0; 2; 0; 2]; [0; 2; 0; 2; 2]; [2; 2; 0; 0; 1];
     [2; 2; 2; 0; 2]]
    (list_to_map
       [("o", 0); ("w", 0); ("s", 0); ("c", 2); ("e", 2); ("i", 0);
        ("a", 2); ("n", 2); ("r", 2); ("b", 0); ("l", 0); ("t", 0)]%char)
    false false.

(** The letters A-Z and a-z. *)
Definition ascii_letter (ch : ascii) : bool :=
  let n := N_of_ascii ch in
  ((65 <=? n) && (n <=? 90) || (97 <=? n) && (n <=? 122))%N.

(** A valid submission that misses the answer. *)
Definition misses (s : session) (raw : string) : Prop :=
  valid_guess (normalize raw) = true ∧ normalize raw ≠ answer s.

Definition session_inv (s : session) : Prop :=
  (length (guesses s) ≤ MAX_GUESSES)%nat
  ∧ (game_over s = false → (length (guesses s) < MAX_GUESSES)%nat)
  ∧ length (feedbacks s) = length (guesses s).

(** A row that [render_row] can show, and a session that the two render
    functions can show. *)
Definition row_ok (g : string) (fb : list Z) : Prop :=
  (length fb ≤ String.length g)%nat ∧ Forall is_code fb.

Definition renderable (s : session) : Prop :=
  Forall2 row_ok (guesses s) (feedbacks s) ∧ codes_only (keyboard s).

(** ** The word list *)

(** [load_words].  [file] is [None] when words.txt does not exist, else the
    lines that [p.read_text(encoding="utf-8").splitlines()] gives;
    [default_words] is the list of the function's last line, which the
    properties below hold for whatever it is. *)
Definition load_words (default_words : list string) (file : option (list string))
    : list string :=
  match file with
  | Some lines =>
      let words := (λ w, lower (strip w)) <$> lines in
      let words := filter (λ w, valid_guess w = true) words in
      match words with
      | [] => default_words
      | _ => words
      end
  | None => default_words
  end.

(** ** Statuses seen for a letter *)

(** The statuses that a run of [update_keyboard]'s loop meets for [c], in
    order, and the largest of a start value and a list of statuses. *)
Definition observed (c : ascii) (gs : list (ascii * Z)) : list Z :=
  omap (λ p : ascii * Z, if decide (p.1 = c) then Some p.2 else None) gs.

Definition best (d : Z) (l : list Z) : Z := foldl Z.max d l.

(** The statuses that a series of [update_keyboard] calls meets for [c]. *)
Definition all_observed (c : ascii) (calls : list (string * list Z)) : list Z :=
  calls ≫= λ call, observed c (zip (chars call.1) call.2).

(** ** Invariants of the session *)

(** Every recorded guess is valid and stands beside its score against the
    answer, and the keyboard is the one that the recorded rows give. *)
Definition scored (s : session) : Prop :=
  Forall2 (λ g fb, valid_guess g = true
                   ∧ wordle_feedback g (answer s) = Some fb)
    (guesses s) (feedbacks s)
  ∧ keyboard s = update_keyboard_all ∅ (zip (guesses s) (feedbacks s)).

(** The answer is recorded only as the last guess of a finished game; a
    game in progress has room for a guess; a finished game ends on the
    answer or is full. *)
Definition settled (s : session) : Prop :=
  (∀ i, guesses s !! i = Some (answer s) →
        game_over s = true ∧ S i = length (guesses s))
  ∧ (game_over s = false → (length (guesses s) < MAX_GUESSES)%nat)
  ∧ (game_over s = true →
     last (guesses s) = Some (answer s) ∨ length (guesses s) = MAX_GUESSES).

(** * Proofs *)

Lemma chars_length s : length (chars s) = String.length s.
Proof. induction s as [|c s IH]; simpl; [done | by rewrite IH]. Qed.

Lemma list_set_middle (pre suf : list Z) r v :
  list_set (pre ++ r :: suf) (length pre) v = Some ((pre ++ [v]) ++ suf).
Proof.
  unfold list_set. rewrite decide_True.
  - f_equal. rewrite <- (Nat.add_0_r (length pre)), insert_app_r.
    by rewrite <- app_assoc.
  - rewrite length_app. simpl. lia.
Qed.

Lemma snoc_length (pre : list Z) v : length (pre ++ [v]) = S (length pre).
Proof. rewrite length_app. simpl. lia. Qed.

Lemma first_pass_spec ga : ∀ pre suf remaining,
  (length ga ≤ length suf)%nat →
  first_pass (length pre) ga (pre ++ suf) remaining
  = Some (pre ++ mark_greens ga suf, count_rest ga remaining).
Proof.
  induction ga as [|[g a] ga IH]; intros pre suf remaining Hlen.
  - by destruct suf.
  - destruct suf as [|r suf]; simpl in Hlen; [lia|].
    simpl. destruct (decide (g = a)) as [->|Hne].
    + rewrite list_set_middle. simpl.
      rewrite <- snoc_length with (v := 2), IH by lia.
      by rewrite <- app_assoc.
    + rewrite <- snoc_length with (v := r).
      replace (pre ++ r :: suf) with ((pre ++ [r]) ++ suf)
        by (by rewrite <- app_assoc).
      rewrite IH by lia. by rewrite <- app_assoc.
Qed.

Lemma second_pass_spec guess : ∀ pre suf remaining,
  (length guess ≤ length suf)%nat →
  second_pass (length pre) guess (pre ++ suf) remaining
  = Some (pre ++ mark_yellows guess suf remaining).
Proof.
  induction guess as [|g guess IH]; intros pre suf remaining Hlen.
  - by destruct suf.
  - destruct suf as [|r suf]; simpl in Hlen; [lia|].
    assert (Hmid : ∀ v, pre ++ v :: suf = (pre ++ [v]) ++ suf)
      by (intros v; by rewrite <- app_assoc).
    simpl. rewrite list_lookup_middle by done. simpl.
    destruct (decide (r ≠ 0)) as [Hr|Hr].
    + rewrite <- snoc_length with (v := r), (Hmid r), IH by lia.
      by rewrite <- app_assoc.
    + destruct (decide (dict_get remaining g 0 > 0)) as [Hpos|Hpos].
      * rewrite list_set_middle. simpl.
        unfold dict_get in Hpos |- *.
        destruct (remaining !! g) as [v|] eqn:Hv; simpl in *; [|lia].
        rewrite <- snoc_length with (v := 1), IH by lia.
        by rewrite <- app_assoc.
      * rewrite <- snoc_length with (v := r), (Hmid r), IH by lia.
        by rewrite <- app_assoc.
Qed.

Lemma first_pass_whole ga result remaining :
  (length ga ≤ length result)%nat →
  first_pass 0 ga result remaining
  = Some (mark_greens ga result, count_rest ga remaining).
Proof. apply (first_pass_spec ga []). Qed.

Lemma second_pass_whole guess result remaining :
  (length guess ≤ length result)%nat →
  second_pass 0 guess result remaining
  = Some (mark_yellows guess result remaining).
Proof. apply (second_pass_spec guess []). Qed.

Lemma mark_greens_length ga : ∀ result,
  length (mark_greens ga result) = length result.
Proof. induction ga as [|[g a] ga IH]; intros [|r res]; simpl; auto. Qed.

Lemma wordle_feedback_spec guess answer :
  (String.length guess ≤ WORD_LENGTH)%nat →
  wordle_feedback guess answer = Some (feedback_of (chars guess) (chars answer)).
Proof.
  intros Hlen. unfold wordle_feedback, feedback_of.
  rewrite <- chars_length in Hlen.
  rewrite first_pass_whole.
  2:{ rewrite length_zip_with, length_replicate. lia. }
  cbn [mbind option_bind].
  apply second_pass_whole.
  rewrite mark_greens_length, length_replicate. lia.
Qed.

(** A guess longer than [WORD_LENGTH] makes the second loop read past the
    end of [result]. *)
Example wordle_feedback_long :
  wordle_feedback "tracee" "crane" = None.
Proof. reflexivity. Qed.

(** ** Counting marks *)

Lemma count_nil {A} (P : A → Prop) `{!∀ x, Decision (P x)} : count P [] = 0%nat.
Proof. done. Qed.

Lemma count_cons {A} (P : A → Prop) `{!∀ x, Decision (P x)} x l :
  count P (x :: l) = ((if decide (P x) then 1 else 0) + count P l)%nat.
Proof. unfold count. rewrite filter_cons. by case_decide. Qed.

Ltac count_cases :=
  unfold occurrences, marked, absent in *;
  cbn [zip zip_with fmap list_fmap fst snd];
  rewrite ?count_cons, ?count_nil;
  repeat case_decide; cbn [fst snd] in *; destruct_and?; subst;
  solve [ lia | exfalso; intuition (try congruence; try lia) ].

Lemma dict_get_insert_eq d k v x : dict_get (<[k:=v]> d) k x = v.
Proof. unfold dict_get. by rewrite lookup_insert_eq. Qed.

Lemma dict_get_insert_ne d k k' v x :
  k ≠ k' → dict_get (<[k:=v]> d) k' x = dict_get d k' x.
Proof. intros. unfold dict_get. by rewrite lookup_insert_ne. Qed.

(** The lemmas of this section count the marks of one letter [c]. *)
Section Letter.

Variable c : ascii.

Lemma mark_yellows_marked guess : ∀ result remaining,
  marked c guess (mark_yellows guess result remaining)
  = (marked c guess result
     + Nat.min (absent c guess result) (Z.to_nat (dict_get remaining c 0)))%nat.
Proof.
  induction guess as [|g guess IH]; intros [|r result] remaining;
    try done.
  simpl. destruct (decide (r ≠ 0)) as [Hr|Hr].
  { specialize (IH result remaining). count_cases. }
  apply dec_stable in Hr as ->.
  destruct (decide (dict_get remaining g 0 > 0)) as [Hpos|Hpos].
  - specialize (IH result (<[g:=dict_get remaining g 0 - 1]> remaining)).
    destruct (decide (g = c)) as [->|Hne].
    + rewrite dict_get_insert_eq in IH. count_cases.
    + rewrite dict_get_insert_ne in IH by done. count_cases.
  - specialize (IH result remaining). count_cases.
Qed.

Lemma occurrences_fst ga :
  occurrences c ga.*1 = (matched c ga + guess_only c ga)%nat.
Proof.
  unfold matched, guess_only.
  induction ga as [|[g a] ga IH]; [done|]. count_cases.
Qed.

Lemma occurrences_snd ga :
  occurrences c ga.*2 = (matched c ga + answer_only c ga)%nat.
Proof.
  unfold matched, answer_only.
  induction ga as [|[g a] ga IH]; [done|]. count_cases.
Qed.

Lemma mark_greens_marked ga : ∀ n, (length ga ≤ n)%nat →
  marked c ga.*1 (mark_greens ga (replicate n 0)) = matched c ga.
Proof.
  unfold matched.
  induction ga as [|[g a] ga IH]; intros [|n] Hn; simpl in Hn; try done; try lia.
  specialize (IH n ltac:(lia)). cbn [mark_greens replicate].
  count_cases.
Qed.

Lemma mark_greens_absent ga : ∀ n, (length ga ≤ n)%nat →
  absent c ga.*1 (mark_greens ga (replicate n 0)) = guess_only c ga.
Proof.
  unfold guess_only.
  induction ga as [|[g a] ga IH]; intros [|n] Hn; simpl in Hn; try done; try lia.
  specialize (IH n ltac:(lia)). cbn [mark_greens replicate].
  count_cases.
Qed.

Lemma count_rest_get ga : ∀ remaining,
  dict_get (count_rest ga remaining) c 0
  = dict_get remaining c 0 + Z.of_nat (answer_only c ga).
Proof.
  unfold answer_only.
  induction ga as [|[g a] ga IH]; intros remaining.
  { simpl. rewrite count_nil. lia. }
  cbn [count_rest]. rewrite IH, count_cons. cbn [fst snd].
  destruct (decide (g = a)) as [->|Hne].
  - case_decide; [exfalso; intuition congruence | lia].
  - destruct (decide (a = c)) as [->|Hac].
    + rewrite dict_get_insert_eq, decide_True by done. lia.
    + rewrite dict_get_insert_ne, decide_False by intuition congruence. lia.
Qed.

(** The number of marks a letter gets is the smaller of its two counts. *)
Lemma feedback_of_marked ga :
  (length ga ≤ WORD_LENGTH)%nat →
  marked c ga.*1 (feedback_of ga.*1 ga.*2)
  = Nat.min (occurrences c ga.*1) (occurrences c ga.*2).
Proof.
  intros Hlen. unfold feedback_of. rewrite zip_fst_snd.
  rewrite mark_yellows_marked, mark_greens_marked, mark_greens_absent by done.
  rewrite occurrences_fst, occurrences_snd.
  pose proof (count_rest_get ga ∅) as Hrest.
  unfold dict_get at 2 in Hrest. rewrite lookup_empty in Hrest. simpl in Hrest.
  rewrite Hrest. lia.
Qed.

Lemma marked_absent guess : ∀ fb, (length guess ≤ length fb)%nat →
  (marked c guess fb + absent c guess fb)%nat = occurrences c guess.
Proof.
  induction guess as [|g guess IH]; intros [|s fb] Hlen; simpl in Hlen;
    try done; try lia.
  specialize (IH fb ltac:(lia)). count_cases.
Qed.

End Letter.

Lemma mark_yellows_length guess : ∀ result remaining,
  length (mark_yellows guess result remaining) = length result.
Proof.
  induction guess as [|g guess IH]; intros [|r result] remaining; simpl;
    try done.
  repeat case_decide; simpl; by rewrite IH.
Qed.

(** The second loop leaves every marked position alone. *)
Lemma mark_yellows_keep guess : ∀ result remaining i r,
  result !! i = Some r → r ≠ 0 →
  mark_yellows guess result remaining !! i = Some r.
Proof.
  induction guess as [|g guess IH]; intros [|r0 result] remaining i r Hi Hr;
    simpl; try done.
  destruct i as [|i]; simpl in Hi.
  - simplify_eq. by rewrite decide_True.
  - repeat case_decide; simpl; by apply IH.
Qed.

(** The first loop marks every positional match. *)
Lemma mark_greens_match ga : ∀ result i x,
  ga !! i = Some (x, x) → (i < length result)%nat →
  mark_greens ga result !! i = Some 2.
Proof.
  induction ga as [|[g a] ga IH]; intros [|r result] i x Hi Hlen;
    simpl in *; try done; try lia.
  destruct i as [|i]; simpl in *.
  - simplify_eq. by rewrite decide_True.
  - apply (IH _ _ x); [done | lia].
Qed.

Lemma mark_greens_codes ga : ∀ result,
  Forall is_code result → Forall is_code (mark_greens ga result).
Proof.
  induction ga as [|[g a] ga IH]; intros result Hres; [done|].
  destruct Hres as [|r result Hr Hres]; [done|]. simpl.
  constructor; [|by apply IH]. case_decide; [right; by right | done].
Qed.

Lemma mark_yellows_codes guess : ∀ result remaining,
  Forall is_code result →
  Forall is_code (mark_yellows guess result remaining).
Proof.
  induction guess as [|g guess IH]; intros result remaining Hres; [done|].
  destruct Hres as [|r result Hr Hres]; [done|]. simpl.
  repeat case_decide; constructor; try done; try by apply IH.
  right; by left.
Qed.

Lemma feedback_of_length guess answer :
  length (feedback_of guess answer) = WORD_LENGTH.
Proof.
  unfold feedback_of.
  by rewrite mark_yellows_length, mark_greens_length, length_replicate.
Qed.

Lemma feedback_of_codes guess answer : Forall is_code (feedback_of guess answer).
Proof.
  apply mark_yellows_codes, mark_greens_codes, Forall_replicate. by left.
Qed.

Lemma feedback_of_match guess answer i x :
  (length guess ≤ WORD_LENGTH)%nat →
  guess !! i = Some x → answer !! i = Some x →
  feedback_of guess answer !! i = Some 2.
Proof.
  intros Hlen Hg Ha. unfold feedback_of.
  apply mark_yellows_keep; [|done].
  apply (mark_greens_match _ _ _ x).
  - rewrite lookup_zip_with, Hg. simpl. by rewrite Ha.
  - rewrite length_replicate. apply lookup_lt_Some in Hg. lia.
Qed.

(** A guess that fits in [WORD_LENGTH] letters is always scored. *)
Lemma wordle_feedback_total guess answer :
  (String.length guess ≤ WORD_LENGTH)%nat →
  ∃ fb, wordle_feedback guess answer = Some fb
        ∧ length fb = WORD_LENGTH ∧ Forall is_code fb.
Proof.
  intros Hlen. eexists. split; [by apply wordle_feedback_spec|].
  split; [apply feedback_of_length | apply feedback_of_codes].
Qed.

(** C1.  For a guess and an answer of [WORD_LENGTH] letters and any letter
    [c], the positions of the guess that hold [c] and are marked Present or
    Correct are at most as many as the occurrences of [c] in the answer.
    When the guess holds [c] twice and the answer once, exactly one of the
    two is marked, the other is Absent, and a positional match is the one
    marked (as Correct). *)
Theorem wordle_feedback_letter_budget (guess answer : string) (c : ascii) :
  String.length guess = WORD_LENGTH → String.length answer = WORD_LENGTH →
  ∃ fb, wordle_feedback guess answer = Some fb
    ∧ length fb = WORD_LENGTH
    ∧ (marked c (chars guess) fb ≤ occurrences c (chars answer))%nat
    ∧ (occurrences c (chars guess) = 2%nat →
       occurrences c (chars answer) = 1%nat →
       marked c (chars guess) fb = 1%nat
       ∧ absent c (chars guess) fb = 1%nat
       ∧ ∀ i, chars guess !! i = Some c → chars answer !! i = Some c →
              fb !! i = Some 2).
Proof.
  intros Hg Ha. exists (feedback_of (chars guess) (chars answer)).
  rewrite <- chars_length in Hg, Ha.
  assert (Hmin : marked c (chars guess) (feedback_of (chars guess) (chars answer))
                 = Nat.min (occurrences c (chars guess))
                           (occurrences c (chars answer))).
  { pose proof (feedback_of_marked c (zip (chars guess) (chars answer))) as H.
    rewrite fst_zip, snd_zip in H by lia. apply H.
    rewrite length_zip_with. lia. }
  split; [apply wordle_feedback_spec; rewrite <- chars_length; lia|].
  split; [apply feedback_of_length|].
  split; [lia|]. intros H2 H1.
  pose proof (marked_absent c (chars guess)
                (feedback_of (chars guess) (chars answer))) as Hsum.
  rewrite feedback_of_length in Hsum. specialize (Hsum ltac:(lia)).
  split; [lia|]. split; [lia|].
  intros i Hgi Hai. apply (feedback_of_match _ _ _ c); [lia | done | done].
Qed.

Lemma wordle_feedback_letter_budget_witness :
  ∃ fb, wordle_feedback "sheep" "cruel" = Some fb
    ∧ (marked "e" (chars "sheep") fb ≤ occurrences "e" (chars "cruel"))%nat
    ∧ marked "e" (chars "sheep") fb = 1%nat
    ∧ absent "e" (chars "sheep") fb = 1%nat
    ∧ fb !! 3%nat = Some 2.
Proof.
  destruct (wordle_feedback_letter_budget "sheep" "cruel" "e" eq_refl eq_refl)
    as (fb & Hfb & _ & Hle & Hdup).
  destruct (Hdup eq_refl eq_refl) as (Hm & Ha & Hpos).
  exists fb. split; [exact Hfb|]. split; [exact Hle|]. split; [exact Hm|].
  split; [exact Ha|]. exact (Hpos 3%nat eq_refl eq_refl).
Defined.

(** The duplicate-letter example: three E and two B in the guess, one E and
    two B in the answer. *)
Example wordle_feedback_abbey :
  wordle_feedback "ebbee" "abbey" = Some [0; 2; 2; 2; 0].
Proof. reflexivity. Qed.

(** C2, as the spec words it, fails: the third letter of "trace" is the
    third letter of "crane", so it is Correct, not Present. *)
Lemma wordle_feedback_trace_not_as_claimed :
  wordle_feedback "trace" "crane" ≠ Some [0; 2; 1; 1; 2].
Proof. vm_compute. discriminate. Qed.

(** C2 (amended).  With [WORD_LENGTH = 5], the guess "trace" against the
    answer "crane" is scored Absent, Correct, Correct, Present, Correct. *)
Theorem wordle_feedback_trace :
  WORD_LENGTH = 5%nat
  ∧ wordle_feedback "trace" "crane" = Some [0; 2; 2; 1; 2].
Proof. split; reflexivity. Qed.

(** * The keyboard tracker *)

Lemma update_keyboard_loop_lookup gs : ∀ (kb : gmap ascii Z) c v,
  kb !! c = Some v →
  ∃ v', update_keyboard_loop kb gs !! c = Some v' ∧ v ≤ v'.
Proof.
  induction gs as [|[ch s] gs IH]; intros kb c v Hc; simpl.
  { exists v. split; [done | lia]. }
  destruct (decide (ch = c)) as [->|Hne].
  - destruct (IH (<[c:=Z.max (dict_get kb c (-1)) s]> kb) c
                (Z.max (dict_get kb c (-1)) s)) as (v' & Hv' & Hle).
    { apply lookup_insert_eq. }
    exists v'. split; [done|]. unfold dict_get in Hle. rewrite Hc in Hle.
    simpl in Hle. lia.
  - apply IH. by rewrite lookup_insert_ne.
Qed.

Lemma update_keyboard_loop_get gs : ∀ (kb : gmap ascii Z) c,
  dict_get kb c (-1) ≤ dict_get (update_keyboard_loop kb gs) c (-1).
Proof.
  induction gs as [|[ch s] gs IH]; intros kb c; simpl; [lia|].
  etrans; [|apply IH].
  destruct (decide (ch = c)) as [->|Hne].
  - rewrite dict_get_insert_eq. lia.
  - rewrite dict_get_insert_ne by done. lia.
Qed.

(** No status above the largest code appears out of codes. *)
Lemma update_keyboard_loop_upper gs : ∀ (kb : gmap ascii Z) c v,
  Forall (λ p, p.2 ≤ 2) gs → kb !! c = Some v → v ≤ 2 →
  ∃ v', update_keyboard_loop kb gs !! c = Some v' ∧ v' ≤ 2.
Proof.
  induction gs as [|[ch s] gs IH]; intros kb c v Hgs Hc Hv; simpl.
  { by exists v. }
  apply Forall_cons in Hgs as [Hs Hgs]. simpl in Hs.
  destruct (decide (ch = c)) as [->|Hne].
  - apply (IH _ _ (Z.max (dict_get kb c (-1)) s)); [done | |].
    + apply lookup_insert_eq.
    + unfold dict_get. rewrite Hc. simpl. lia.
  - apply (IH _ _ v); [done | | done]. by rewrite lookup_insert_ne.
Qed.

Lemma Forall_zip_snd (P : Z → Prop) (guess : list ascii) : ∀ fb,
  Forall P fb → Forall (λ p : ascii * Z, P p.2) (zip guess fb).
Proof.
  induction guess as [|g guess IH]; intros fb Hfb; [constructor|].
  destruct Hfb as [|s fb Hs Hfb]; [constructor|].
  simpl. constructor; [done | by apply IH].
Qed.

(** C7.  [update_keyboard] never lowers a status, in the order
    0 < 1 < 2 of the codes: a letter that has a status keeps one that is at
    least as high, the status read with the default -1 does not go down,
    and a letter at Correct stays at Correct under feedback made of codes
    up to Correct. *)
Theorem update_keyboard_monotone (kb : gmap ascii Z) (guess : string)
    (fb : list Z) (c : ascii) :
  dict_get kb c (-1) ≤ dict_get (update_keyboard kb guess fb) c (-1)
  ∧ (∀ v, kb !! c = Some v →
          ∃ v', update_keyboard kb guess fb !! c = Some v' ∧ v ≤ v')
  ∧ (kb !! c = Some 2 → Forall (λ s, s ≤ 2) fb →
     update_keyboard kb guess fb !! c = Some 2).
Proof.
  unfold update_keyboard. split; [apply update_keyboard_loop_get|].
  split; [intros v; apply update_keyboard_loop_lookup|].
  intros Hc Hfb.
  destruct (update_keyboard_loop_lookup (zip (chars guess) fb) kb c 2 Hc)
    as (v1 & Hv1 & Hge).
  destruct (update_keyboard_loop_upper (zip (chars guess) fb) kb c 2)
    as (v2 & Hv2 & Hle);
    [by apply (Forall_zip_snd (λ s, s ≤ 2)) | done | lia |].
  rewrite Hv1 in Hv2 |- *. simplify_eq. f_equal. lia.
Qed.

Lemma update_keyboard_monotone_witness :
  update_keyboard {[ "e"%char := 2 ]} "eagle" [1; 0; 0; 0; 0] !! "e"%char
  = Some 2.
Proof.
  apply (update_keyboard_monotone {[ "e"%char := 2 ]} "eagle" [1; 0; 0; 0; 0]).
  - reflexivity.
  - repeat constructor; lia.
Defined.

(** ** Stored statuses are codes *)

Lemma update_keyboard_loop_codes gs : ∀ kb,
  Forall (λ p, is_code p.2) gs → codes_only kb →
  codes_only (update_keyboard_loop kb gs).
Proof.
  induction gs as [|[ch s] gs IH]; intros kb Hgs Hkb; [done|].
  apply Forall_cons in Hgs as [Hs Hgs]. simpl in Hs |- *.
  apply IH; [done|]. apply map_Forall_insert_2; [|done].
  unfold dict_get. destruct (kb !! ch) as [v|] eqn:Hv; simpl.
  - apply Hkb in Hv. unfold is_code in *. lia.
  - unfold is_code in *. lia.
Qed.

Lemma update_keyboard_codes kb guess fb :
  Forall is_code fb → codes_only kb → codes_only (update_keyboard kb guess fb).
Proof.
  intros Hfb. apply update_keyboard_loop_codes.
  by apply (Forall_zip_snd is_code).
Qed.

Lemma key_class_codes kb ch : codes_only kb → is_Some (key_class kb ch).
Proof.
  intros Hkb. unfold key_class. destruct (kb !! ch) as [v|] eqn:Hv; [|done].
  apply Hkb in Hv as [-> | [-> | ->]]; by eexists.
Qed.

Lemma render_keyboard_codes kb : codes_only kb → is_Some (render_keyboard kb).
Proof.
  intros Hkb. apply mapM_is_Some, Forall_forall. intros r _.
  apply mapM_is_Some, Forall_forall. intros ch _. by apply key_class_codes.
Qed.

(** C10.  After any series of [update_keyboard] calls on an empty keyboard
    with feedback made of the codes 0, 1 and 2, every stored status is 0, 1
    or 2, and [render_keyboard] finds a class for every key. *)
Theorem update_keyboard_stores_codes (calls : list (string * list Z)) :
  Forall (λ c, Forall is_code c.2) calls →
  (∀ ch v, update_keyboard_all ∅ calls !! ch = Some v → v = 0 ∨ v = 1 ∨ v = 2)
  ∧ (∀ ch, is_Some (key_class (update_keyboard_all ∅ calls) ch))
  ∧ is_Some (render_keyboard (update_keyboard_all ∅ calls)).
Proof.
  intros Hcalls.
  assert (Hinv : codes_only (update_keyboard_all ∅ calls)).
  { unfold update_keyboard_all.
    assert (Hgen : ∀ kb, codes_only kb →
      codes_only (foldl (λ kb c, update_keyboard kb c.1 c.2) kb calls)).
    { induction Hcalls as [|[g fb] calls Hfb _ IH]; intros kb Hkb; [done|].
      simpl. apply IH. by apply update_keyboard_codes. }
    apply Hgen, map_Forall_empty. }
  split; [intros ch v Hv; by apply Hinv in Hv|].
  split; [intros ch; by apply key_class_codes | by apply render_keyboard_codes].
Qed.

Lemma update_keyboard_stores_codes_witness :
  is_Some (render_keyboard
    (update_keyboard_all ∅ [("trace"%string, [0; 2; 2; 1; 2]);
                            ("crane"%string, [2; 2; 2; 2; 2])])).
Proof.
  apply (update_keyboard_stores_codes
           [("trace"%string, [0; 2; 2; 1; 2]); ("crane"%string, [2; 2; 2; 2; 2])]).
  repeat constructor; unfold is_code; simpl; lia.
Defined.

(** * The session *)

Lemma valid_guess_length g : valid_guess g = true → String.length g = WORD_LENGTH.
Proof.
  unfold valid_guess. intros [Hlen _]%andb_true_iff.
  by apply bool_decide_eq_true in Hlen.
Qed.

Lemma all_lowercase_Forall (l : list ascii) :
  forallb (λ ch, bool_decide (ch ∈ chars ascii_lowercase)) l = true
  ↔ Forall (λ ch, ch ∈ chars ascii_lowercase) l.
Proof.
  induction l as [|ch l IH]; simpl.
  - split; [constructor | done].
  - rewrite andb_true_iff, Forall_cons, bool_decide_eq_true, IH. done.
Qed.

(** The validity test, in the words of the error message. *)
Lemma valid_guess_false g :
  valid_guess g = false
  ↔ String.length g ≠ WORD_LENGTH
    ∨ ¬ Forall (λ ch, ch ∈ chars ascii_lowercase) (chars g).
Proof.
  unfold valid_guess.
  rewrite andb_false_iff, bool_decide_eq_false, <- all_lowercase_Forall.
  by rewrite not_true_iff_false.
Qed.

(** An accepted guess is always scored and recorded. *)
Lemma process_guess_valid s g :
  valid_guess g = true →
  ∃ s' o, process_guess s g = Some (s', o)
    ∧ words s' = words s ∧ answer s' = answer s
    ∧ guesses s' = guesses s ++ [g]
    ∧ feedbacks s' = feedbacks s ++ [feedback_of (chars g) (chars (answer s))]
    ∧ keyboard s'
      = update_keyboard (keyboard s) g (feedback_of (chars g) (chars (answer s)))
    ∧ _enter_submit s' = _enter_submit s
    ∧ (g = answer s → o = Won ∧ game_over s' = true)
    ∧ (g ≠ answer s → (MAX_GUESSES ≤ S (length (guesses s)))%nat →
       o = Lost ∧ game_over s' = true)
    ∧ (g ≠ answer s → (S (length (guesses s)) < MAX_GUESSES)%nat →
       o = InProgress ∧ game_over s' = game_over s).
Proof.
  intros Hlen%valid_guess_length. unfold process_guess.
  rewrite wordle_feedback_spec by lia. cbn [mbind option_bind].
  rewrite length_app, Nat.add_1_r.
  destruct (decide (g = answer s)) as [Heq|Hne];
    [|destruct (decide (MAX_GUESSES ≤ S (length (guesses s)))%nat)];
    eexists _, _; (split; [reflexivity|]); simpl;
    repeat split; try done; try lia.
Qed.

(** A submission on a session in progress: line 159 onwards. *)
Lemma run_submitted s w :
  sidebar_restart w = false → game_over s = false → submitted s w = true →
  run s w
  = if negb (valid_guess (normalize (guess_text w)))
    then Some (set_enter_submit s w, InvalidGuess)
    else process_guess (set_enter_submit s w) (normalize (guess_text w)).
Proof. intros Hside Hover Hsub. unfold run, main. by rewrite Hside, Hover, Hsub. Qed.

(** C3.  A valid submission that equals the answer takes the win branch,
    whatever the number of guesses made before, the last allowed one
    included: the run reports [Won], not [Lost], and the guess is recorded. *)
Theorem matching_guess_wins (s : session) (w : widgets) :
  sidebar_restart w = false → game_over s = false → submitted s w = true →
  valid_guess (normalize (guess_text w)) = true →
  normalize (guess_text w) = answer s →
  ∃ s', run s w = Some (s', Won)
    ∧ game_over s' = true
    ∧ guesses s' = guesses s ++ [answer s]
    ∧ answer s' = answer s.
Proof.
  intros Hside Hover Hsub Hvalid Heq.
  rewrite run_submitted, Hvalid by done. simpl.
  destruct (process_guess_valid (set_enter_submit s w) _ Hvalid)
    as (s' & o & -> & _ & Hans & Hgs & _ & _ & _ & Hwon & _).
  destruct (Hwon Heq) as [-> Hover']. simpl in *.
  exists s'. rewrite Hgs, Heq. done.
Qed.

Example demo_last_turn_played :
  submit_all demo_fresh ["trace"; "slate"; "brine"; "crown"; "crate"]
  = Some (demo_last_turn, replicate 5 InProgress).
Proof. vm_compute. reflexivity. Qed.

Lemma matching_guess_wins_witness :
  ∃ s', submitGuess demo_last_turn "crane" = Some (s', Won)
    ∧ game_over s' = true
    ∧ guesses s' = guesses demo_last_turn ++ ["crane"]
    ∧ answer s' = "crane".
Proof.
  apply (matching_guess_wins demo_last_turn (Widgets false "crane" true false 0));
    reflexivity.
Defined.

(** ** Validation of the guess *)

(** C5, as the spec words it, fails: "Slate" holds a character outside
    a-z, and it is recorded as the guess "slate". *)
Lemma capitalised_guess_recorded :
  ¬ Forall (λ ch, ch ∈ chars ascii_lowercase) (chars "Slate")
  ∧ ∃ s', submitGuess demo_fresh "Slate" = Some (s', InProgress)
          ∧ guesses s' = ["slate"]
          ∧ length (guesses s') ≠ length (guesses demo_fresh).
Proof.
  split.
  - intros H%all_lowercase_Forall. vm_compute in H. discriminate.
  - eexists. split; [vm_compute; reflexivity|]. split; [reflexivity | done].
Qed.

(** C5 (amended).  A submission whose text, stripped and lowercased, is
    not exactly [WORD_LENGTH] characters or holds a character outside a-z
    is rejected with [InvalidGuess]; word list, answer, history, feedbacks,
    keyboard and the game-over flag stay as they were. *)
Theorem invalid_guess_rejected (s : session) (w : widgets) :
  sidebar_restart w = false → game_over s = false → submitted s w = true →
  String.length (normalize (guess_text w)) ≠ WORD_LENGTH
  ∨ ¬ Forall (λ ch, ch ∈ chars ascii_lowercase)
        (chars (normalize (guess_text w))) →
  ∃ s', run s w = Some (s', InvalidGuess)
    ∧ words s' = words s ∧ answer s' = answer s
    ∧ guesses s' = guesses s ∧ feedbacks s' = feedbacks s
    ∧ keyboard s' = keyboard s ∧ game_over s' = game_over s.
Proof.
  intros Hside Hover Hsub Hbad%valid_guess_false.
  rewrite run_submitted, Hbad by done. simpl.
  exists (set_enter_submit s w). done.
Qed.

Lemma invalid_guess_rejected_witness :
  ∃ s', submitGuess demo_last_turn "ab3de" = Some (s', InvalidGuess)
    ∧ words s' = words demo_last_turn ∧ answer s' = answer demo_last_turn
    ∧ guesses s' = guesses demo_last_turn
    ∧ feedbacks s' = feedbacks demo_last_turn
    ∧ keyboard s' = keyboard demo_last_turn
    ∧ game_over s' = game_over demo_last_turn.
Proof.
  apply (invalid_guess_rejected demo_last_turn
           (Widgets false "ab3de" true false 0)); try reflexivity.
  right. intros H%all_lowercase_Forall. vm_compute in H. discriminate.
Defined.

Lemma ascii_letter_lower ch :
  ascii_letter ch = true →
  bool_decide (lower_char ch ∈ chars ascii_lowercase) = true.
Proof.
  destruct ch as [[] [] [] [] [] [] [] []]; vm_compute;
    first [reflexivity | discriminate].
Qed.

Lemma ascii_letter_not_space ch : ascii_letter ch = true → isspace ch = false.
Proof.
  destruct ch as [[] [] [] [] [] [] [] []]; vm_compute;
    first [reflexivity | discriminate].
Qed.

Lemma lstrip_letters l : forallb ascii_letter l = true → lstrip l = l.
Proof.
  destruct l as [|ch l]; [done|]. simpl.
  intros [Hch _]%andb_true_iff. by rewrite ascii_letter_not_space.
Qed.

Lemma forallb_reverse (f : ascii → bool) l :
  forallb f (reverse l) = forallb f l.
Proof.
  induction l as [|x l IH]; [done|].
  rewrite reverse_cons, forallb_app, IH. simpl. by rewrite andb_true_r, andb_comm.
Qed.

(** Text made of letters has nothing to strip. *)
Lemma strip_letters raw :
  forallb ascii_letter (chars raw) = true → strip raw = raw.
Proof.
  intros H. unfold strip.
  rewrite (lstrip_letters (chars raw)), lstrip_letters, reverse_involutive
    by (by rewrite ?forallb_reverse).
  apply String.string_of_list_ascii_of_string.
Qed.

Lemma lower_chars s : chars (lower s) = lower_char <$> chars s.
Proof. apply String.list_ascii_of_string_of_list_ascii. Qed.

Lemma lower_letters_all l :
  forallb ascii_letter l = true →
  forallb (λ ch, bool_decide (ch ∈ chars ascii_lowercase)) (lower_char <$> l)
  = true.
Proof.
  induction l as [|ch l IH]; [done|]. cbn [forallb fmap list_fmap].
  intros [Hch Hl]%andb_true_iff. apply andb_true_iff.
  split; [by apply ascii_letter_lower | by apply IH].
Qed.

Lemma lower_letters_valid raw :
  String.length raw = WORD_LENGTH →
  forallb ascii_letter (chars raw) = true →
  valid_guess (lower raw) = true.
Proof.
  intros Hlen Hall. unfold valid_guess.
  rewrite <- chars_length, lower_chars, length_fmap, chars_length.
  rewrite bool_decide_eq_true_2 by done. by apply lower_letters_all.
Qed.

(** C6, as the spec words it, fails: "CRANE" is recorded as "crane". *)
Lemma uppercase_guess_recorded :
  ∃ s', submitGuess demo_last_turn "CRANE" = Some (s', Won)
        ∧ guesses s' = guesses demo_last_turn ++ ["crane"].
Proof. eexists. split; [vm_compute; reflexivity | reflexivity]. Qed.

(** C6 (amended).  The text of a submission is stripped and lowercased
    before it is validated, so uppercase letters are folded, not rejected:
    the submission fails with [InvalidGuess] exactly when the normalised
    text is not a valid guess, and then nothing is recorded; otherwise the
    normalised text is recorded.  In particular [WORD_LENGTH] letters in
    any mix of A-Z and a-z are accepted and recorded in lowercase. *)
Theorem uppercase_guess_lowercased (s : session) (w : widgets) :
  sidebar_restart w = false → game_over s = false → submitted s w = true →
  ∃ s' o, run s w = Some (s', o)
    ∧ (o = InvalidGuess ↔ valid_guess (normalize (guess_text w)) = false)
    ∧ (o = InvalidGuess → guesses s' = guesses s)
    ∧ (o ≠ InvalidGuess →
       guesses s' = guesses s ++ [normalize (guess_text w)])
    ∧ (String.length (guess_text w) = WORD_LENGTH →
       forallb ascii_letter (chars (guess_text w)) = true →
       o ≠ InvalidGuess ∧ normalize (guess_text w) = lower (guess_text w)).
Proof.
  intros Hside Hover Hsub. rewrite run_submitted by done.
  assert (Hletters : String.length (guess_text w) = WORD_LENGTH →
            forallb ascii_letter (chars (guess_text w)) = true →
            valid_guess (normalize (guess_text w)) = true
            ∧ normalize (guess_text w) = lower (guess_text w)).
  { intros Hlen Hall. unfold normalize. rewrite strip_letters by done.
    split; [by apply lower_letters_valid | done]. }
  destruct (valid_guess (normalize (guess_text w))) eqn:Hvalid; simpl.
  - destruct (process_guess_valid (set_enter_submit s w) _ Hvalid)
      as (s' & o & -> & _ & _ & Hgs & _ & _ & _ & Hwon & Hlost & Hgo).
    assert (Ho : o ≠ InvalidGuess).
    { destruct (decide (normalize (guess_text w) = answer s)) as [Heq|Hne].
      - by destruct (Hwon Heq) as [-> _].
      - destruct (decide (MAX_GUESSES ≤ S (length (guesses s)))%nat).
        + by destruct (Hlost Hne ltac:(done)) as [-> _].
        + by destruct (Hgo Hne ltac:(simpl; lia)) as [-> _]. }
    exists s', o. split; [done|]. split; [by split|]. split; [done|].
    split; [done|]. intros Hlen Hall. split; [done | by apply Hletters].
  - exists (set_enter_submit s w), InvalidGuess. split; [done|].
    split; [done|]. split; [done|]. split; [done|].
    intros Hlen Hall. by destruct (Hletters Hlen Hall).
Qed.

Lemma uppercase_guess_lowercased_witness :
  ∃ s' o, submitGuess demo_fresh "SLATE" = Some (s', o)
    ∧ o ≠ InvalidGuess ∧ guesses s' = ["slate"].
Proof.
  destruct (uppercase_guess_lowercased demo_fresh
              (Widgets false "SLATE" true false 0))
    as (s' & o & Hrun & _ & _ & Hrec & Hletters); try reflexivity.
  destruct (Hletters eq_refl eq_refl) as [Ho _].
  exists s', o. split; [exact Hrun|]. split; [exact Ho|]. exact (Hrec Ho).
Defined.

(** ** Running out of guesses *)

Lemma submitGuess_miss s raw :
  game_over s = false → misses s raw →
  ∃ s' o, submitGuess s raw = Some (s', o)
    ∧ answer s' = answer s
    ∧ guesses s' = guesses s ++ [normalize raw]
    ∧ ((MAX_GUESSES ≤ S (length (guesses s)))%nat →
       o = Lost ∧ game_over s' = true)
    ∧ ((S (length (guesses s)) < MAX_GUESSES)%nat →
       o = InProgress ∧ game_over s' = false).
Proof.
  intros Hover [Hvalid Hne]. unfold submitGuess.
  rewrite run_submitted by done. simpl guess_text. rewrite Hvalid. simpl.
  destruct (process_guess_valid
              (set_enter_submit s (Widgets false raw true false 0)) _ Hvalid)
    as (s' & o & -> & _ & Hans & Hgs & _ & _ & _ & _ & Hlost & Hgo).
  simpl in *. exists s', o. repeat split; try done.
  - by apply Hlost.
  - by apply Hlost.
  - by apply Hgo.
  - rewrite <- Hover. by apply Hgo.
Qed.

Lemma submit_all_misses raws : ∀ s,
  raws ≠ [] → game_over s = false →
  (length (guesses s) + length raws = MAX_GUESSES)%nat →
  Forall (misses s) raws →
  ∃ s', submit_all s raws
        = Some (s', replicate (length raws - 1) InProgress ++ [Lost])
    ∧ game_over s' = true
    ∧ answer s' = answer s
    ∧ guesses s' = guesses s ++ (normalize <$> raws).
Proof.
  induction raws as [|raw raws IH]; intros s Hnil Hover Hlen Hall; [done|].
  apply Forall_cons in Hall as [Hraw Hall]. simpl in Hlen.
  destruct (submitGuess_miss s raw Hover Hraw)
    as (s1 & o & Hsub & Hans & Hgs & Hlost & Hgo).
  cbn [submit_all]. rewrite Hsub. cbn [mbind option_bind].
  destruct raws as [|raw' raws].
  - destruct Hlost as [-> Hover1]; [simpl in Hlen; lia|]. simpl.
    exists s1. by rewrite Hgs.
  - destruct Hgo as [-> Hover1]; [simpl in Hlen; lia|].
    destruct (IH s1) as (s2 & Hrest & Hover2 & Hans2 & Hgs2); try done.
    + rewrite Hgs, length_app. simpl in *. lia.
    + unfold misses in *. by rewrite Hans.
    + rewrite Hrest. cbn [mbind option_bind]. exists s2.
      split; [|split; [done|split; [congruence|]]].
      * simpl. by rewrite Nat.sub_0_r.
      * rewrite Hgs2, Hgs, <- app_assoc. done.
Qed.

(** C4.  [MAX_GUESSES] valid submissions on a fresh session, none equal to
    the answer, are all recorded; the last one reports [Lost] and sets the
    game-over flag.  From then on a run in which no restart button is
    pressed takes the game-over branch and leaves the whole session, with
    its history, keyboard and answer, as it is. *)
Theorem six_misses_lose (s : session) (raws : list string) :
  guesses s = [] → game_over s = false →
  length raws = MAX_GUESSES → Forall (misses s) raws →
  ∃ s', submit_all s raws
        = Some (s', replicate (MAX_GUESSES - 1) InProgress ++ [Lost])
    ∧ game_over s' = true
    ∧ answer s' = answer s
    ∧ guesses s' = normalize <$> raws
    ∧ (∀ w, sidebar_restart w = false → play_again w = false →
            run s' w = Some (s', SessionTerminated))
    ∧ (∀ raw, submitGuess s' raw = Some (s', SessionTerminated)).
Proof.
  intros Hnil Hover Hlen Hall.
  destruct (submit_all_misses raws s) as (s' & Hrun & Hover' & Hans & Hgs);
    try done.
  { intros ->. done. }
  { rewrite Hnil. simpl. lia. }
  assert (Hterm : ∀ w, sidebar_restart w = false → play_again w = false →
                       run s' w = Some (s', SessionTerminated)).
  { intros w Hside Hplay. unfold run, main.
    by rewrite Hside, Hover', Hplay. }
  exists s'. rewrite Hlen in Hrun. rewrite Hnil in Hgs.
  repeat split; try done. intros raw. by apply Hterm.
Qed.

Lemma six_misses_lose_witness :
  ∃ s', submit_all demo_fresh
          ["trace"; "slate"; "brine"; "crown"; "crate"; "cramp"]
        = Some (s', replicate (MAX_GUESSES - 1) InProgress ++ [Lost])
    ∧ game_over s' = true
    ∧ (∀ raw, submitGuess s' raw = Some (s', SessionTerminated)).
Proof.
  destruct (six_misses_lose demo_fresh
              ["trace"; "slate"; "brine"; "crown"; "crate"; "cramp"])
    as (s' & Hrun & Hover & _ & _ & _ & Hterm); try reflexivity.
  - repeat constructor; by vm_compute.
  - exists s'. split; [exact Hrun|]. split; [exact Hover | exact Hterm].
Defined.

(** ** Restart *)

Lemma choose_answer_nonempty ws r :
  ws ≠ [] → ∃ a, choose_answer ws r = Some a ∧ a ∈ ws.
Proof.
  intros Hne. unfold choose_answer.
  destruct ws as [|w0 ws]; [done|].
  destruct (lookup_lt_is_Some_2 (w0 :: ws) (r `mod` length (w0 :: ws))%nat)
    as [a Ha].
  { apply Nat.mod_upper_bound. simpl. lia. }
  exists a. split; [done|]. by eapply list_elem_of_lookup_2.
Qed.

(** C9.  Whatever the session is like, a run in which the sidebar's
    restart button is pressed, or "Play again" on the game-over screen,
    succeeds when the word list is not empty; it leaves an empty history,
    an empty keyboard, the game-over flag down, and an answer drawn anew
    from the word list. *)
Theorem restart_resets (s : session) (w : widgets) :
  words s ≠ [] →
  sidebar_restart w = true ∨ (game_over s = true ∧ play_again w = true) →
  ∃ s' a, run s w = Some (s', Restarted)
    ∧ choose_answer (words s) (rand w) = Some a ∧ a ∈ words s
    ∧ answer s' = a
    ∧ guesses s' = [] ∧ feedbacks s' = [] ∧ keyboard s' = ∅
    ∧ game_over s' = false
    ∧ words s' = words s.
Proof.
  intros Hne Hbutton.
  destruct (choose_answer_nonempty (words s) (rand w) Hne) as (a & Ha & Hin).
  assert (Hrestart : (s' ← restart s (rand w); Some (s', Restarted))
    = Some (Session (words s) a [] [] ∅ false (_enter_submit s), Restarted)).
  { unfold restart. by rewrite Ha. }
  exists (Session (words s) a [] [] ∅ false (_enter_submit s)), a.
  split; [|repeat split; done].
  unfold run, main. destruct Hbutton as [-> | [-> ->]]; [done|].
  simpl. by destruct (sidebar_restart w).
Qed.

Lemma restart_resets_witness :
  ∃ s' a, restart_cmd demo_last_turn 7 = Some (s', Restarted)
    ∧ choose_answer (words demo_last_turn) 7 = Some a
    ∧ a ∈ words demo_last_turn
    ∧ answer s' = a
    ∧ guesses s' = [] ∧ feedbacks s' = [] ∧ keyboard s' = ∅
    ∧ game_over s' = false
    ∧ words s' = words demo_last_turn.
Proof.
  apply (restart_resets demo_last_turn (Widgets true "" false false 7)).
  - discriminate.
  - left. reflexivity.
Defined.

(** ** The bound on the history *)

Lemma restart_inv s r s' : restart s r = Some s' → session_inv s'.
Proof.
  unfold restart. destruct (choose_answer (words s) r); [|done].
  intros [= <-]. unfold session_inv, MAX_GUESSES. simpl. repeat split; lia.
Qed.

Lemma process_guess_inv s g s' o :
  session_inv s → game_over s = false → valid_guess g = true →
  process_guess s g = Some (s', o) → session_inv s'.
Proof.
  intros (Hle & Hlt & Hfb) Hover Hvalid Hrun. specialize (Hlt Hover).
  destruct (process_guess_valid s g Hvalid)
    as (s1 & o1 & Hrun1 & _ & _ & Hgs & Hfbs & _ & _ & Hwon & Hlost & Hgo).
  rewrite Hrun in Hrun1. simplify_eq. unfold session_inv.
  rewrite Hgs, Hfbs, !length_app. simpl.
  repeat split; [lia | | lia]. intros Hover1.
  destruct (decide (g = answer s)) as [Heq|Hne].
  { destruct (Hwon Heq) as [_ Htrue]. congruence. }
  destruct (decide (MAX_GUESSES ≤ S (length (guesses s)))%nat) as [Hmax|Hmax].
  { destruct (Hlost Hne Hmax) as [_ Htrue]. congruence. }
  lia.
Qed.

Lemma run_inv s w s' o : session_inv s → run s w = Some (s', o) → session_inv s'.
Proof.
  intros Hinv. unfold run, main.
  destruct (sidebar_restart w).
  { destruct (restart s (rand w)) as [s1|] eqn:Hr; [|done].
    intros [= <- <-]. by eapply restart_inv. }
  destruct (game_over s) eqn:Hover; simpl.
  - destruct (play_again w).
    + destruct (restart s (rand w)) as [s1|] eqn:Hr; [|done].
      intros [= <- <-]. by eapply restart_inv.
    + by intros [= <- <-].
  - assert (Hinv1 : session_inv (set_enter_submit s w)) by done.
    destruct (submitted s w); [|by intros [= <- <-]].
    destruct (valid_guess (normalize (guess_text w))) eqn:Hvalid; simpl.
    + by apply process_guess_inv.
    + by intros [= <- <-].
Qed.

Lemma reachable_inv s : reachable s → session_inv s.
Proof.
  induction 1 as [ws r s Hinit | s w s' o _ IH Hrun].
  - unfold init in Hinit. destruct (choose_answer ws r); [|done].
    simpl in Hinit. simplify_eq. unfold session_inv, MAX_GUESSES. simpl. repeat split; lia.
  - by eapply run_inv.
Qed.

Lemma submit_all_reachable s raws : ∀ s' os,
  submit_all s raws = Some (s', os) → reachable s → reachable s'.
Proof.
  revert s. induction raws as [|raw raws IH]; intros s s' os Hrun Hs.
  - simpl in Hrun. by simplify_eq.
  - cbn [submit_all] in Hrun.
    destruct (submitGuess s raw) as [[s1 o]|] eqn:Hstep; [|done].
    cbn [mbind option_bind] in Hrun.
    destruct (submit_all s1 raws) as [[s2 os2]|] eqn:Hrest; [|done].
    simpl in Hrun. simplify_eq.
    apply (IH s1 s' os2 Hrest). by eapply reachable_run.
Qed.

(** C8.  In every session that is reached from an initialised one by runs
    of the script, with guesses submitted and restarts in any order, at
    most [MAX_GUESSES] guesses are stored. *)
Theorem history_bounded (s : session) :
  reachable s → (length (guesses s) ≤ MAX_GUESSES)%nat.
Proof. intros Hs. by apply reachable_inv in Hs as [Hle _]. Qed.

Lemma history_bounded_witness :
  reachable demo_last_turn
  ∧ (length (guesses demo_last_turn) ≤ MAX_GUESSES)%nat.
Proof.
  assert (Hreach : reachable demo_last_turn).
  { apply (submit_all_reachable demo_fresh _ _ _ demo_last_turn_played).
    apply (reachable_init demo_words 0). reflexivity. }
  split; [exact Hreach | exact (history_bounded demo_last_turn Hreach)].
Defined.

(** ** Rendering *)

Lemma render_row_ok g fb : row_ok g fb → is_Some (render_row g fb).
Proof.
  intros [Hlen Hcodes]. apply mapM_is_Some, Forall_lookup.
  intros j [j' st] Hj. rewrite list_lookup_imap in Hj.
  destruct (fb !! j) as [st'|] eqn:Hfb; simpl in Hj; [|done].
  injection Hj as <- <-.
  pose proof (lookup_lt_Some _ _ _ Hfb) as Hlt.
  rewrite Forall_lookup in Hcodes. specialize (Hcodes _ _ Hfb).
  destruct (lookup_lt_is_Some_2 (chars g) j) as [ch Hch].
  { rewrite chars_length. lia. }
  simpl. rewrite Hch. by destruct Hcodes as [-> | [-> | ->]].
Qed.

Lemma render_board_ok gs fbs : Forall2 row_ok gs fbs → is_Some (render_board gs fbs).
Proof.
  intros Hrows. apply mapM_is_Some, Forall_forall. intros i _. simpl.
  case_decide as Hi; [|done].
  destruct (lookup_lt_is_Some_2 gs i Hi) as [g Hg].
  destruct (Forall2_lookup_l _ _ _ _ _ Hrows Hg) as (fb & Hfb & Hrow).
  rewrite Hg, Hfb. simpl. by apply render_row_ok.
Qed.

Lemma process_guess_renderable s g s' o :
  renderable s → valid_guess g = true →
  process_guess s g = Some (s', o) → renderable s'.
Proof.
  intros [Hrows Hkb] Hvalid Hrun.
  destruct (process_guess_valid s g Hvalid)
    as (s1 & o1 & Hrun1 & _ & _ & Hgs & Hfbs & Hkb1 & _).
  rewrite Hrun in Hrun1. simplify_eq. unfold renderable.
  rewrite Hgs, Hfbs, Hkb1. split.
  - apply Forall2_app; [done|]. constructor; [|constructor]. split.
    + rewrite feedback_of_length, (valid_guess_length g Hvalid). done.
    + apply feedback_of_codes.
  - apply update_keyboard_codes; [apply feedback_of_codes | done].
Qed.

Lemma restart_renderable s r s' : restart s r = Some s' → renderable s'.
Proof.
  unfold restart. destruct (choose_answer (words s) r); [|done].
  intros [= <-]. split; [constructor | apply map_Forall_empty].
Qed.

Lemma run_renderable s w s' o :
  renderable s → run s w = Some (s', o) → renderable s'.
Proof.
  intros Hok. unfold run, main.
  destruct (sidebar_restart w).
  { destruct (restart s (rand w)) as [s1|] eqn:Hr; [|done].
    intros [= <- <-]. by eapply restart_renderable. }
  destruct (game_over s); simpl.
  - destruct (play_again w).
    + destruct (restart s (rand w)) as [s1|] eqn:Hr; [|done].
      intros [= <- <-]. by eapply restart_renderable.
    + by intros [= <- <-].
  - assert (Hok1 : renderable (set_enter_submit s w)) by done.
    destruct (submitted s w); [|by intros [= <- <-]].
    destruct (valid_guess (normalize (guess_text w))) eqn:Hvalid; simpl.
    + by apply process_guess_renderable.
    + by intros [= <- <-].
Qed.

(** The render calls of a run never raise on a session the script can be
    in. *)
Lemma reachable_renders s :
  reachable s →
  is_Some (render_board (guesses s) (feedbacks s))
  ∧ is_Some (render_keyboard (keyboard s)).
Proof.
  intros Hs.
  assert (Hok : renderable s).
  { induction Hs as [ws r s Hinit | s w s' o _ IH Hrun].
    - unfold init in Hinit. destruct (choose_answer ws r); [|done].
      simpl in Hinit. simplify_eq.
      split; [constructor | apply map_Forall_empty].
    - by eapply run_renderable. }
  destruct Hok as [Hrows Hkb].
  split; [by apply render_board_ok | by apply render_keyboard_codes].
Qed.

(** * Further properties of the scoring function *)

Lemma first_pass_length ga : ∀ i result remaining result' remaining',
  first_pass i ga result remaining = Some (result', remaining') →
  length result' = length result.
Proof.
  induction ga as [|[g a] ga IH]; intros i result remaining result' remaining';
    simpl.
  { by intros [= <- <-]. }
  case_decide.
  - unfold list_set. case_decide; [|done]. simpl. intros H1%IH.
    by rewrite H1, length_insert.
  - apply IH.
Qed.

(** The second loop reads [result[i]] for every index of the guess. *)
Lemma second_pass_overrun guess : ∀ i result remaining,
  (i ≤ length result)%nat → (length result < i + length guess)%nat →
  second_pass i guess result remaining = None.
Proof.
  induction guess as [|g guess IH]; intros i result remaining Hi Hlen;
    simpl in *; [lia|].
  destruct (result !! i) as [r|] eqn:Hr; [|done]. simpl.
  apply lookup_lt_Some in Hr.
  case_decide; [apply IH; lia|].
  case_decide; [|apply IH; lia].
  unfold list_set. rewrite decide_True by done. simpl.
  destruct (remaining !! g); [|done]. simpl.
  apply IH; rewrite length_insert; lia.
Qed.

(** X1.  [wordle_feedback] returns a list exactly when the guess has at
    most [WORD_LENGTH] characters, whatever the length of the answer; a
    longer guess raises IndexError.  The list returned always has
    [WORD_LENGTH] entries, each 0, 1 or 2. *)
Theorem wordle_feedback_defined_iff (guess answer : string) :
  (is_Some (wordle_feedback guess answer)
   ↔ (String.length guess ≤ WORD_LENGTH)%nat)
  ∧ (∀ fb, wordle_feedback guess answer = Some fb →
           length fb = WORD_LENGTH ∧ Forall is_code fb).
Proof.
  assert (Hlong : (WORD_LENGTH < String.length guess)%nat →
                  wordle_feedback guess answer = None).
  { intros Hlen. unfold wordle_feedback.
    destruct (first_pass 0 _ _ _) as [[result remaining]|] eqn:H1; [|done].
    cbn [mbind option_bind]. apply first_pass_length in H1.
    apply second_pass_overrun; [lia|].
    rewrite H1, length_replicate, chars_length. lia. }
  split; [split|].
  - intros [fb Hfb]. destruct (decide (String.length guess ≤ WORD_LENGTH)%nat);
      [done|]. rewrite Hlong in Hfb by lia. done.
  - intros Hlen. rewrite wordle_feedback_spec by done. by eexists.
  - intros fb Hfb.
    destruct (decide (String.length guess ≤ WORD_LENGTH)%nat) as [Hlen|Hlen].
    + rewrite wordle_feedback_spec in Hfb by done. simplify_eq.
      split; [apply feedback_of_length | apply feedback_of_codes].
    + rewrite Hlong in Hfb by lia. done.
Qed.

Lemma wordle_feedback_defined_iff_witness :
  is_Some (wordle_feedback "tra" "crane")
  ∧ ¬ is_Some (wordle_feedback "tracee" "crane")
  ∧ length (default [] (wordle_feedback "tra" "crane")) = WORD_LENGTH.
Proof.
  destruct (wordle_feedback_defined_iff "tra" "crane") as [Hiff Hshape].
  destruct (wordle_feedback_defined_iff "tracee" "crane") as [Hiff' _].
  split; [apply Hiff; vm_compute; lia|].
  split.
  - intros H%Hiff'. vm_compute in H. lia.
  - apply (Hshape [0; 2; 2; 0; 0]). reflexivity.
Defined.

(** X2.  For a guess and an answer of one length, at most [WORD_LENGTH],
    the positions of the guess that hold a letter and are marked Present or
    Correct are exactly as many as the smaller of the letter's counts in
    the guess and in the answer.  Hence a letter that is marked Absent
    somewhere is marked as often as the answer holds it. *)
Theorem wordle_feedback_exact_count (guess answer : string) (c : ascii) :
  String.length guess = String.length answer →
  (String.length guess ≤ WORD_LENGTH)%nat →
  ∃ fb, wordle_feedback guess answer = Some fb
    ∧ marked c (chars guess) fb
      = Nat.min (occurrences c (chars guess)) (occurrences c (chars answer))
    ∧ ((0 < absent c (chars guess) fb)%nat →
       marked c (chars guess) fb = occurrences c (chars answer)).
Proof.
  intros Heq Hlen. exists (feedback_of (chars guess) (chars answer)).
  split; [by apply wordle_feedback_spec|].
  rewrite <- !chars_length in Heq. rewrite <- chars_length in Hlen.
  pose proof (feedback_of_marked c (zip (chars guess) (chars answer))) as Hmin.
  rewrite fst_zip, snd_zip in Hmin by lia.
  rewrite length_zip_with in Hmin. specialize (Hmin ltac:(lia)).
  pose proof (marked_absent c (chars guess)
                (feedback_of (chars guess) (chars answer))) as Hsum.
  rewrite feedback_of_length in Hsum. specialize (Hsum Hlen).
  split; [done | lia].
Qed.

Lemma wordle_feedback_exact_count_witness :
  ∃ fb, wordle_feedback "ebbee" "abbey" = Some fb
    ∧ marked "e" (chars "ebbee") fb = 1%nat
    ∧ marked "e" (chars "ebbee") fb = occurrences "e" (chars "abbey").
Proof.
  destruct (wordle_feedback_exact_count "ebbee" "abbey" "e" eq_refl)
    as (fb & Hfb & Hmin & Habs); [vm_compute; lia|].
  exists fb. split; [exact Hfb|]. split; [exact Hmin|].
  apply Habs. rewrite wordle_feedback_abbey in Hfb.
  injection Hfb as <-. vm_compute. lia.
Defined.

(** The first loop writes 2 only at positional matches. *)
Lemma mark_greens_two ga : ∀ result i,
  mark_greens ga result !! i = Some 2 →
  result !! i = Some 2 ∨ ∃ x, ga !! i = Some (x, x).
Proof.
  induction ga as [|[g a] ga IH]; intros [|r result] i Hi; simpl in *;
    try by left.
  destruct i as [|i]; simpl in *.
  - case_decide; [right; exists g; by subst | by left].
  - destruct (IH _ _ Hi) as [?|[x Hx]]; [by left | right; by exists x].
Qed.

(** The second loop writes 1 only, and only over 0. *)
Lemma mark_yellows_changed guess : ∀ result remaining i s,
  mark_yellows guess result remaining !! i = Some s →
  result !! i = Some s ∨ (s = 1 ∧ result !! i = Some 0).
Proof.
  induction guess as [|g guess IH]; intros [|r result] remaining i s Hi;
    simpl in *; try by left.
  destruct (decide (r ≠ 0)) as [Hr|Hr].
  { destruct i as [|i]; simpl in *; [by left | by eapply IH]. }
  apply dec_stable in Hr as ->.
  case_decide; (destruct i as [|i]; simpl in *; [|by eapply IH]).
  - right. by simplify_eq.
  - by left.
Qed.

Lemma feedback_of_two guess answer i :
  feedback_of guess answer !! i = Some 2 →
  ∃ x, guess !! i = Some x ∧ answer !! i = Some x.
Proof.
  unfold feedback_of. intros Hi.
  apply mark_yellows_changed in Hi as [Hi|[? _]]; [|done].
  apply mark_greens_two in Hi as [Hi|[x Hx]].
  - apply lookup_replicate in Hi as [? _]. done.
  - exists x. rewrite lookup_zip_with in Hx.
    destruct (guess !! i) as [y|]; simpl in Hx; [|done].
    destruct (answer !! i) as [z|]; simpl in Hx; [|done]. by simplify_eq.
Qed.

(** X3.  In the feedback of a guess of at most [WORD_LENGTH] characters, a
    position is marked Correct exactly when guess and answer hold the same
    character there. *)
Theorem wordle_feedback_correct_iff (guess answer : string) (fb : list Z)
    (i : nat) :
  (String.length guess ≤ WORD_LENGTH)%nat →
  wordle_feedback guess answer = Some fb →
  (fb !! i = Some 2
   ↔ ∃ x, chars guess !! i = Some x ∧ chars answer !! i = Some x).
Proof.
  intros Hlen Hfb. rewrite wordle_feedback_spec in Hfb by done. simplify_eq.
  split; [apply feedback_of_two|]. intros (x & Hg & Ha).
  apply (feedback_of_match _ _ _ x); [by rewrite chars_length | done | done].
Qed.

Lemma wordle_feedback_correct_iff_witness :
  [0; 2; 2; 1; 2] !! 2%nat = Some 2
  ↔ ∃ x, chars "trace" !! 2%nat = Some x ∧ chars "crane" !! 2%nat = Some x.
Proof.
  apply (wordle_feedback_correct_iff "trace" "crane");
    [vm_compute; lia | reflexivity].
Defined.

Lemma chars_inj s1 s2 : chars s1 = chars s2 → s1 = s2.
Proof.
  intros H. rewrite <- (String.string_of_list_ascii_of_string s1),
    <- (String.string_of_list_ascii_of_string s2). unfold chars in H.
  by rewrite H.
Qed.

(** X4.  For a guess and an answer of [WORD_LENGTH] characters, the
    feedback is Correct at every position exactly when the guess is the
    answer. *)
Theorem wordle_feedback_all_correct_iff (guess answer : string) :
  String.length guess = WORD_LENGTH → String.length answer = WORD_LENGTH →
  (wordle_feedback guess answer = Some (replicate WORD_LENGTH 2)
   ↔ guess = answer).
Proof.
  intros Hg Ha. rewrite wordle_feedback_spec by lia.
  rewrite <- chars_length in Hg, Ha. split.
  - intros Hfb%(inj Some). apply chars_inj, list_eq. intros i.
    destruct (decide (i < WORD_LENGTH)%nat) as [Hi|Hi].
    + destruct (feedback_of_two (chars guess) (chars answer) i)
        as (x & -> & ->); [|done].
      rewrite Hfb. by apply lookup_replicate_2.
    + rewrite !lookup_ge_None_2 by lia. done.
  - intros ->. f_equal. apply list_eq. intros i.
    destruct (decide (i < WORD_LENGTH)%nat) as [Hi|Hi].
    + rewrite lookup_replicate_2 by done.
      destruct (lookup_lt_is_Some_2 (chars answer) i) as [x Hx]; [lia|].
      apply (feedback_of_match _ _ _ x); [lia | done | done].
    + rewrite !lookup_ge_None_2; [done | rewrite length_replicate; lia |].
      rewrite feedback_of_length. lia.
Qed.

Lemma wordle_feedback_all_correct_iff_witness :
  wordle_feedback "crane" "crane" = Some (replicate WORD_LENGTH 2)
  ∧ wordle_feedback "crate" "crane" ≠ Some (replicate WORD_LENGTH 2).
Proof.
  split.
  - apply (wordle_feedback_all_correct_iff "crane" "crane"); reflexivity.
  - intros H.
    apply (wordle_feedback_all_correct_iff "crate" "crane") in H;
      [discriminate | reflexivity | reflexivity].
Defined.

Section LetterMore.

Variable c : ascii.

Lemma occurrences_pos (l : list ascii) : (0 < occurrences c l)%nat ↔ c ∈ l.
Proof.
  unfold occurrences. induction l as [|x l IH].
  - rewrite count_nil, elem_of_nil. lia.
  - rewrite count_cons, elem_of_cons. case_decide; subst.
    + split; [by left | lia].
    + rewrite <- IH. split; [intros; right; lia | intros [?|?]; [done | lia]].
Qed.

Lemma marked_pos guess : ∀ fb i s,
  guess !! i = Some c → fb !! i = Some s → s ≠ 0 →
  (0 < marked c guess fb)%nat.
Proof.
  unfold marked.
  induction guess as [|g guess IH]; intros [|s0 fb] i s Hg Hfb Hs;
    try done.
  cbn [zip zip_with]. rewrite count_cons.
  destruct i as [|i]; simpl in Hg, Hfb.
  - simplify_eq. rewrite decide_True by done. lia.
  - specialize (IH fb i s Hg Hfb Hs). lia.
Qed.

Lemma marked_zeros guess n : marked c guess (replicate n 0) = 0%nat.
Proof.
  unfold marked. revert n.
  induction guess as [|g guess IH]; intros [|n]; try done.
  cbn [replicate zip zip_with]. rewrite count_cons, IH.
  rewrite decide_False; [done | intros [_ ?]; done].
Qed.

End LetterMore.

(** X5.  For a guess and an answer of [WORD_LENGTH] characters, the
    feedback is Absent at every position exactly when no letter of the
    guess occurs in the answer. *)
Theorem wordle_feedback_all_absent_iff (guess answer : string) :
  String.length guess = WORD_LENGTH → String.length answer = WORD_LENGTH →
  (wordle_feedback guess answer = Some (replicate WORD_LENGTH 0)
   ↔ ∀ c, c ∈ chars guess → c ∉ chars answer).
Proof.
  intros Hg Ha. rewrite wordle_feedback_spec by lia.
  rewrite <- chars_length in Hg, Ha.
  assert (Hmin : ∀ c, marked c (chars guess)
                        (feedback_of (chars guess) (chars answer))
                 = Nat.min (occurrences c (chars guess))
                           (occurrences c (chars answer))).
  { intros c.
    pose proof (feedback_of_marked c (zip (chars guess) (chars answer))) as H.
    rewrite fst_zip, snd_zip in H by lia. apply H.
    rewrite length_zip_with. lia. }
  split.
  - intros Hfb%(inj Some) c Hcg Hca. specialize (Hmin c).
    rewrite Hfb, marked_zeros in Hmin.
    apply occurrences_pos in Hcg, Hca. lia.
  - intros Hdisj. f_equal. apply list_eq. intros i.
    destruct (decide (i < WORD_LENGTH)%nat) as [Hi|Hi].
    2:{ rewrite !lookup_ge_None_2; [done | rewrite length_replicate; lia |].
        rewrite feedback_of_length. lia. }
    rewrite lookup_replicate_2 by done.
    destruct (lookup_lt_is_Some_2 (feedback_of (chars guess) (chars answer)) i)
      as [s Hs]; [rewrite feedback_of_length; lia|].
    destruct (lookup_lt_is_Some_2 (chars guess) i) as [c Hc]; [lia|].
    rewrite Hs. f_equal. destruct (decide (s = 0)) as [|Hne]; [done|].
    exfalso. pose proof (marked_pos c _ _ _ _ Hc Hs Hne) as Hpos.
    rewrite Hmin in Hpos.
    apply (Hdisj c); [by eapply list_elem_of_lookup_2|].
    apply occurrences_pos. lia.
Qed.

Lemma wordle_feedback_all_absent_iff_witness :
  wordle_feedback "moldy" "crane" = Some (replicate WORD_LENGTH 0).
Proof.
  apply (wordle_feedback_all_absent_iff "moldy" "crane");
    [reflexivity | reflexivity |].
  intros c Hg Ha. apply list_elem_of_In in Hg, Ha. simpl in Hg, Ha.
  intuition congruence.
Defined.

Lemma mark_greens_zero_two ga : ∀ result,
  Forall (λ r, r = 0 ∨ r = 2) result →
  Forall (λ r, r = 0 ∨ r = 2) (mark_greens ga result).
Proof.
  induction ga as [|[g a] ga IH]; intros result Hres; [done|].
  destruct Hres as [|r result Hr Hres]; [done|]. simpl.
  constructor; [|by apply IH]. case_decide; [by right | done].
Qed.

Section InOrder.

Variable c : ascii.

(** Once the counter of [c] is used up, the second loop marks no [c]. *)
Lemma mark_yellows_spent guess : ∀ result remaining j,
  Forall (λ r, r = 0 ∨ r = 2) result →
  dict_get remaining c 0 ≤ 0 →
  guess !! j = Some c →
  mark_yellows guess result remaining !! j ≠ Some 1.
Proof.
  induction guess as [|g guess IH]; intros result remaining j Hres Hrem Hj;
    [done|].
  destruct Hres as [|r result Hr Hres]; [done|]. simpl.
  destruct (decide (r ≠ 0)) as [Hr0|Hr0].
  { destruct j as [|j]; simpl in *; [|by apply IH].
    intros [= ->]. lia. }
  apply dec_stable in Hr0 as ->.
  destruct (decide (dict_get remaining g 0 > 0)) as [Hpos|Hpos].
  - destruct j as [|j]; simpl in *; [simplify_eq; lia|].
    apply IH; [done | | done].
    rewrite dict_get_insert_ne; [done|]. intros ->. lia.
  - destruct j as [|j]; simpl in *; [done | by apply IH].
Qed.

Lemma mark_yellows_in_order guess : ∀ result remaining i j,
  Forall (λ r, r = 0 ∨ r = 2) result → (i < j)%nat →
  guess !! i = Some c → guess !! j = Some c →
  mark_yellows guess result remaining !! i = Some 0 →
  mark_yellows guess result remaining !! j ≠ Some 1.
Proof.
  induction guess as [|g guess IH]; intros result remaining i j Hres Hij Hi Hj;
    [done|].
  destruct Hres as [|r result Hr Hres]; [done|].
  destruct j as [|j]; [lia|]. simpl.
  destruct i as [|i]; simpl in Hi, Hj.
  - simplify_eq. destruct (decide (r ≠ 0)) as [Hr0|Hr0]; simpl.
    { by intros [= ->]. }
    destruct (decide (dict_get remaining c 0 > 0)) as [Hpos|Hpos]; simpl;
      [done|].
    intros _. apply mark_yellows_spent; [done | lia | done].
  - repeat case_decide; simpl; apply IH; done || lia.
Qed.

End InOrder.

(** X6.  Present marks go to the leftmost occurrences: when a position is
    marked Present, every earlier position of the guess with the same
    letter is marked Present or Correct. *)
Theorem wordle_feedback_present_in_order (guess answer : string)
    (fb : list Z) (c : ascii) (i j : nat) :
  (String.length guess ≤ WORD_LENGTH)%nat →
  wordle_feedback guess answer = Some fb →
  (i < j)%nat →
  chars guess !! i = Some c → chars guess !! j = Some c →
  fb !! j = Some 1 →
  fb !! i = Some 1 ∨ fb !! i = Some 2.
Proof.
  intros Hlen Hfb Hij Hi Hj Hyellow.
  rewrite wordle_feedback_spec in Hfb by done. simplify_eq.
  pose proof (feedback_of_codes (chars guess) (chars answer)) as Hcodes.
  pose proof (feedback_of_length (chars guess) (chars answer)) as Hfblen.
  destruct (lookup_lt_is_Some_2 (feedback_of (chars guess) (chars answer)) i)
    as [s Hs].
  { apply lookup_lt_Some in Hi. rewrite chars_length in Hi. lia. }
  rewrite Forall_lookup in Hcodes.
  destruct (Hcodes i s Hs) as [-> | [-> | ->]]; [|by left | by right].
  exfalso. revert Hyellow. unfold feedback_of in *.
  apply (mark_yellows_in_order c _ _ _ i j); try done.
  apply mark_greens_zero_two, Forall_replicate. by left.
Qed.

Lemma wordle_feedback_present_in_order_witness :
  [0; 0; 1; 1; 0] !! 2%nat = Some 1 ∨ [0; 0; 1; 1; 0] !! 2%nat = Some 2.
Proof.
  apply (wordle_feedback_present_in_order "sheep" "eerie" [0; 0; 1; 1; 0]
           "e" 2 3); try reflexivity; vm_compute; lia.
Defined.

(** * Further properties of the keyboard tracker *)

Lemma best_ge d l : d ≤ best d l.
Proof.
  unfold best. revert d. induction l as [|x l IH]; intros d; simpl; [lia|].
  etrans; [|apply IH]. lia.
Qed.

Lemma best_mono d d' l : d ≤ d' → best d l ≤ best d' l.
Proof.
  unfold best. revert d d'. induction l as [|x l IH]; intros d d' Hd; simpl;
    [done|]. apply IH. lia.
Qed.

(** [best] is the largest of its start value and its list. *)
Lemma best_max d l : best d l = Z.max d (best d l).
Proof. pose proof (best_ge d l). lia. Qed.

Lemma best_cons d x l : best d (x :: l) = Z.max x (best d l).
Proof.
  unfold best. simpl. revert d. induction l as [|y l IH]; intros d; simpl;
    [lia|]. rewrite <- IH. f_equal. lia.
Qed.

Lemma best_start d e l : best (Z.max e d) l = Z.max e (best d l).
Proof.
  rewrite <- best_cons. unfold best. simpl. by rewrite Z.max_comm.
Qed.

Lemma best_twice d l : best (best d l) l = best d l.
Proof.
  revert d. induction l as [|x l IH]; intros d; [done|].
  rewrite !best_cons, best_start, IH. lia.
Qed.

Lemma best_swap d l1 l2 : best (best d l1) l2 = best (best d l2) l1.
Proof.
  revert d. induction l1 as [|x l1 IH]; intros d; [done|].
  rewrite !best_cons, best_start, IH. done.
Qed.

Lemma best_elem d l x : x ∈ l → x ≤ best d l.
Proof.
  induction 1 as [x l | x y l _ IH]; rewrite best_cons; lia.
Qed.

(** The largest value is the start value or one of the list. *)
Lemma best_attained d l : best d l = d ∨ best d l ∈ l.
Proof.
  induction l as [|x l IH]; [by left|]. rewrite best_cons.
  destruct (Z.max_spec x (best d l)) as [[_ ->] | [_ ->]].
  - destruct IH as [->|?]; [by left | right; by right].
  - right. by left.
Qed.

Section OneLetter.

Variable c : ascii.

Lemma update_keyboard_loop_get_best gs : ∀ kb,
  dict_get (update_keyboard_loop kb gs) c (-1)
  = best (dict_get kb c (-1)) (observed c gs).
Proof.
  unfold observed.
  induction gs as [|[ch s] gs IH]; intros kb; [done|].
  cbn [update_keyboard_loop omap list_omap fst snd]. rewrite IH.
  destruct (decide (ch = c)) as [->|Hne].
  - by rewrite dict_get_insert_eq.
  - by rewrite dict_get_insert_ne.
Qed.

Lemma update_keyboard_loop_unseen gs : ∀ kb,
  observed c gs = [] → update_keyboard_loop kb gs !! c = kb !! c.
Proof.
  unfold observed.
  induction gs as [|[ch s] gs IH]; intros kb Hobs; [done|].
  cbn [update_keyboard_loop omap list_omap fst snd] in *.
  destruct (decide (ch = c)) as [->|Hne]; [done|].
  rewrite IH by done. by rewrite lookup_insert_ne.
Qed.

Lemma update_keyboard_loop_seen gs : ∀ kb,
  observed c gs ≠ [] → is_Some (update_keyboard_loop kb gs !! c).
Proof.
  unfold observed.
  induction gs as [|[ch s] gs IH]; intros kb Hobs; [done|].
  cbn [update_keyboard_loop omap list_omap fst snd] in *.
  destruct (decide (ch = c)) as [->|Hne]; [|by apply IH].
  destruct (update_keyboard_loop_lookup gs
              (<[c:=Z.max (dict_get kb c (-1)) s]> kb) c
              (Z.max (dict_get kb c (-1)) s)) as (v & Hv & _);
    [apply lookup_insert_eq | by eexists].
Qed.

(** The status of [c] after the loop, in closed form. *)
Lemma update_keyboard_loop_closed gs kb :
  update_keyboard_loop kb gs !! c
  = match observed c gs with
    | [] => kb !! c
    | l => Some (best (dict_get kb c (-1)) l)
    end.
Proof.
  destruct (observed c gs) as [|x l] eqn:Hobs.
  - by apply update_keyboard_loop_unseen.
  - destruct (update_keyboard_loop_seen gs kb) as [v Hv]; [by rewrite Hobs|].
    pose proof (update_keyboard_loop_get_best gs kb) as Hget.
    unfold dict_get at 1 in Hget. rewrite Hv in Hget. simpl in Hget.
    by rewrite Hv, Hget, Hobs.
Qed.

End OneLetter.

(** X7.  After [update_keyboard], a letter that the zip of guess and
    feedback does not hold keeps its entry (or stays without one); a letter
    that it holds has the largest of its old status, -1 when it had none,
    and the statuses paired with it. *)
Theorem update_keyboard_closed_form (kb : gmap ascii Z) (guess : string)
    (fb : list Z) (c : ascii) :
  update_keyboard kb guess fb !! c
  = match observed c (zip (chars guess) fb) with
    | [] => kb !! c
    | l => Some (best (dict_get kb c (-1)) l)
    end.
Proof. apply update_keyboard_loop_closed. Qed.

Lemma update_keyboard_loop_dom gs : ∀ kb : gmap ascii Z,
  dom (update_keyboard_loop kb gs) = dom kb ∪ list_to_set gs.*1.
Proof.
  induction gs as [|[ch s] gs IH]; intros kb; simpl.
  - by rewrite (right_id_L ∅ (∪)).
  - rewrite IH, dom_insert_L, (comm_L (∪) {[ch]} (dom kb)).
    by rewrite <- (assoc_L (∪)).
Qed.

(** X8.  [update_keyboard] removes no letter and adds exactly the letters
    of the guess that are paired with a feedback entry. *)
Theorem update_keyboard_dom (kb : gmap ascii Z) (guess : string)
    (fb : list Z) :
  dom (update_keyboard kb guess fb)
  = dom kb ∪ list_to_set (take (length fb) (chars guess)).
Proof.
  unfold update_keyboard. rewrite update_keyboard_loop_dom. f_equal. f_equal.
  revert fb. induction (chars guess) as [|g l IH]; intros [|s fb]; simpl;
    try done. by rewrite IH.
Qed.

(** X9.  Two [update_keyboard] calls give the same keyboard in either
    order. *)
Theorem update_keyboard_comm (kb : gmap ascii Z) (guess1 guess2 : string)
    (fb1 fb2 : list Z) :
  update_keyboard (update_keyboard kb guess1 fb1) guess2 fb2
  = update_keyboard (update_keyboard kb guess2 fb2) guess1 fb1.
Proof.
  apply map_eq. intros c. unfold update_keyboard.
  rewrite !update_keyboard_loop_closed.
  pose proof (update_keyboard_loop_get_best c (zip (chars guess1) fb1) kb) as H1.
  pose proof (update_keyboard_loop_get_best c (zip (chars guess2) fb2) kb) as H2.
  rewrite H1, H2, ?update_keyboard_loop_closed.
  destruct (observed c (zip (chars guess1) fb1)) as [|x1 l1] eqn:Ho1;
    destruct (observed c (zip (chars guess2) fb2)) as [|x2 l2] eqn:Ho2;
    try done.
  f_equal. apply best_swap.
Qed.

(** X10.  Repeating an [update_keyboard] call with the same guess and
    feedback changes nothing. *)
Theorem update_keyboard_idemp (kb : gmap ascii Z) (guess : string)
    (fb : list Z) :
  update_keyboard (update_keyboard kb guess fb) guess fb
  = update_keyboard kb guess fb.
Proof.
  apply map_eq. intros c. unfold update_keyboard.
  rewrite update_keyboard_loop_closed.
  pose proof (update_keyboard_loop_get_best c (zip (chars guess) fb) kb) as H1.
  rewrite H1, ?update_keyboard_loop_closed.
  destruct (observed c (zip (chars guess) fb)) as [|x l] eqn:Ho; [done|].
  f_equal. apply best_twice.
Qed.

(** * Further properties of the renderers *)

Lemma STATUS_TO_CLASS_is_Some s : is_Some (STATUS_TO_CLASS !! s) ↔ is_code s.
Proof.
  unfold STATUS_TO_CLASS, is_code.
  destruct (decide (s = 0)) as [->|H0]; [split; [by left | by eexists]|].
  rewrite lookup_insert_ne by done.
  destruct (decide (s = 1)) as [->|H1];
    [split; [right; by left | by eexists]|].
  rewrite lookup_insert_ne by done.
  destruct (decide (s = 2)) as [->|H2];
    [split; [right; by right | by eexists]|].
  rewrite lookup_singleton_ne by done.
  split; [by intros [? ?] | lia].
Qed.

Lemma key_class_is_Some kb ch :
  is_Some (key_class kb ch) ↔ ∀ v, kb !! ch = Some v → is_code v.
Proof.
  unfold key_class. destruct (kb !! ch) as [s|].
  - rewrite STATUS_TO_CLASS_is_Some. split; [by intros ? ? [= <-] | auto].
  - split; [done | by eexists].
Qed.

(** The keys of the three rows are the 26 lowercase letters. *)
Lemma keyboard_rows_letters ch :
  ch ∈ concat (chars <$> keyboard_rows) ↔ ch ∈ chars ascii_lowercase.
Proof.
  rewrite <- (bool_decide_eq_true (ch ∈ concat (chars <$> keyboard_rows))),
    <- (bool_decide_eq_true (ch ∈ chars ascii_lowercase)).
  destruct ch as [[] [] [] [] [] [] [] []]; vm_compute; done.
Qed.

(** X11.  [render_keyboard] raises exactly when some lowercase letter has
    a stored status other than 0, 1 and 2; entries for other characters are
    never looked at.  When it returns, the rows have 10, 9 and 7 keys. *)
Theorem render_keyboard_defined_iff (kb : gmap ascii Z) :
  (is_Some (render_keyboard kb)
   ↔ ∀ ch v, ch ∈ chars ascii_lowercase → kb !! ch = Some v → is_code v)
  ∧ (∀ rows, render_keyboard kb = Some rows →
             length <$> rows = [10; 9; 7]%nat).
Proof.
  split.
  - unfold render_keyboard. rewrite mapM_is_Some.
    transitivity (Forall (is_Some ∘ key_class kb)
                    (concat (chars <$> keyboard_rows))).
    { unfold keyboard_rows. rewrite !Forall_cons, Forall_nil.
      cbn [fmap list_fmap concat compose]. rewrite !mapM_is_Some.
      rewrite !Forall_app, Forall_nil. tauto. }
    rewrite Forall_forall. split.
    + intros H ch v Hch. apply key_class_is_Some, H, keyboard_rows_letters, Hch.
    + intros H ch Hch%keyboard_rows_letters.
      apply key_class_is_Some. intros v. by apply H.
  - intros rows Hrows. apply mapM_Some in Hrows. unfold keyboard_rows in Hrows.
    apply Forall2_cons_inv_l in Hrows as (r1 & rows1 & H1 & Hrows & ->).
    apply Forall2_cons_inv_l in Hrows as (r2 & rows2 & H2 & Hrows & ->).
    apply Forall2_cons_inv_l in Hrows as (r3 & rows3 & H3 & Hrows & ->).
    apply Forall2_nil_inv_l in Hrows as ->.
    apply length_mapM in H1, H2, H3. simpl. by rewrite <- H1, <- H2, <- H3.
Qed.

Lemma render_keyboard_defined_iff_witness :
  ¬ is_Some (render_keyboard {[ "q"%char := 3 ]})
  ∧ is_Some (render_keyboard {[ "?"%char := 3 ]}).
Proof.
  destruct (render_keyboard_defined_iff {[ "q"%char := 3 ]}) as [Hq _].
  destruct (render_keyboard_defined_iff {[ "?"%char := 3 ]}) as [Hother _].
  destruct Hq as [Hq _]. destruct Hother as [_ Hother]. split.
  - intros H. specialize (Hq H).
    assert (Hin : "q"%char ∈ chars ascii_lowercase).
    { apply list_elem_of_In. simpl. tauto. }
    destruct (Hq "q"%char 3 Hin eq_refl) as [? | [? | ?]]; done.
  - apply Hother. intros ch v Hch Hv. exfalso.
    apply lookup_singleton_Some in Hv as [<- _].
    apply list_elem_of_In in Hch. simpl in Hch. intuition congruence.
Defined.

Lemma render_row_tiles g fb row :
  render_row g fb = Some row →
  length row = length fb
  ∧ ∀ j s, fb !! j = Some s →
      ∃ cls ch, STATUS_TO_CLASS !! s = Some cls ∧ chars g !! j = Some ch
                ∧ row !! j = Some (cls, Some ch).
Proof.
  intros Hrow. unfold render_row in Hrow.
  pose proof (length_mapM _ _ _ Hrow) as Hlen. rewrite length_imap in Hlen.
  split; [done|]. intros j s Hs.
  apply mapM_Some in Hrow.
  destruct (Forall2_lookup_l _ _ _ j (j, s) Hrow) as (t & Ht & Htile).
  { by rewrite list_lookup_imap, Hs. }
  simpl in Htile.
  destruct (STATUS_TO_CLASS !! s) as [cls|]; [|done].
  destruct (chars g !! j) as [ch|]; [|done].
  simpl in Htile. simplify_eq. by exists cls, ch.
Qed.



(** * Further properties of the word list *)

Lemma choose_answer_None ws r : choose_answer ws r = None ↔ ws = [].
Proof.
  split; [|by intros ->].
  destruct ws as [|w0 ws]; [done|]. intros H. exfalso.
  destruct (choose_answer_nonempty (w0 :: ws) r) as (a & Ha & _); [done|].
  congruence.
Qed.

Lemma choose_answer_Some ws r a : choose_answer ws r = Some a → a ∈ ws.
Proof.
  intros Ha. destruct ws as [|w0 ws]; [done|].
  destruct (choose_answer_nonempty (w0 :: ws) r) as (a' & Ha' & Hin); [done|].
  congruence.
Qed.

(** X13.  With a file, [load_words] keeps the lines that are valid guesses
    once stripped and lowercased, in the order of the file; when there is
    no file or no such line it returns the built-in list.  So the list
    returned is not empty and holds only valid guesses whenever that is so
    of the built-in list. *)
Theorem load_words_valid (default_words : list string)
    (file : option (list string)) :
  (∀ lines, file = Some lines →
     filter (λ w, valid_guess w = true) (normalize <$> lines) ≠ [] →
     load_words default_words file
     = filter (λ w, valid_guess w = true) (normalize <$> lines))
  ∧ ((file = None
      ∨ ∃ lines, file = Some lines
          ∧ Forall (λ l, valid_guess (normalize l) = false) lines) →
     load_words default_words file = default_words)
  ∧ (default_words ≠ [] → load_words default_words file ≠ [])
  ∧ (Forall (λ w, valid_guess w = true) default_words →
     Forall (λ w, valid_guess w = true) (load_words default_words file)).
Proof.
  unfold load_words, normalize. split; [|split; [|split]].
  - intros lines -> Hne.
    by destruct (filter _ _) as [|w ws].
  - intros [-> | (lines & -> & Hbad)]; [done|].
    assert (Hnil : filter (λ w, valid_guess w = true)
                     ((λ w, lower (strip w)) <$> lines) = []); [|by rewrite Hnil].
    induction Hbad as [|l lines Hl _ IH]; [done|].
    rewrite fmap_cons, filter_cons_False; [done|]. by rewrite Hl.
  - intros Hne. destruct file as [lines|]; [|done].
    by destruct (filter _ _) as [|w ws].
  - intros Hdef. destruct file as [lines|]; [|done].
    destruct (filter _ _) as [|w ws] eqn:Hf; [done|].
    rewrite <- Hf. apply Forall_forall. intros x Hx.
    by apply list_elem_of_filter in Hx as [Hx _].
Qed.

Lemma load_words_valid_witness :
  load_words ["crane"] (Some ["  Slate "; "toolong"; "BRICK"; "ab3de"; ""])
  = ["slate"; "brick"]
  ∧ load_words ["crane"] (Some ["toolong"; "ab3de"]) = ["crane"].
Proof.
  destruct (load_words_valid ["crane"]
              (Some ["  Slate "; "toolong"; "BRICK"; "ab3de"; ""]))
    as (Hfile & _).
  destruct (load_words_valid ["crane"] (Some ["toolong"; "ab3de"]))
    as (_ & Hfall & _).
  split.
  - rewrite (Hfile _ eq_refl); [reflexivity | by vm_compute].
  - apply Hfall. right. eexists. split; [reflexivity|].
    repeat constructor.
Defined.

(** * Further properties of the session *)

(** ** When a run raises *)

Lemma restart_None s r : restart s r = None ↔ words s = [].
Proof.
  unfold restart. rewrite <- (choose_answer_None (words s) r).
  by destruct (choose_answer (words s) r).
Qed.

(** The only exception of a run is that of [random.choice]. *)
Lemma run_None_iff (s : session) (w : widgets) :
  run s w = None
  ↔ words s = []
    ∧ (sidebar_restart w = true ∨ (game_over s = true ∧ play_again w = true)).
Proof.
  unfold run, main.
  destruct (sidebar_restart w).
  { destruct (restart s (rand w)) as [s1|] eqn:Hr; simpl.
    - split; [done|]. intros [Hw _]. apply (restart_None s (rand w)) in Hw. congruence.
    - split; [|done]. intros _. split; [by eapply restart_None | by left]. }
  destruct (game_over s); simpl.
  - destruct (play_again w).
    + destruct (restart s (rand w)) as [s1|] eqn:Hr; simpl.
      * split; [done|]. intros [Hw _]. apply (restart_None s (rand w)) in Hw. congruence.
      * split; [|done]. intros _.
        split; [by eapply restart_None | by right].
    + split; [done|]. by intros [_ [? | [_ ?]]].
  - destruct (submitted s w); [|split; [done | by intros [_ [? | [? _]]]]].
    destruct (valid_guess (normalize (guess_text w))) eqn:Hvalid; simpl.
    + destruct (process_guess_valid (set_enter_submit s w) _ Hvalid)
        as (s' & o & -> & _).
      split; [done | by intros [_ [? | [? _]]]].
    + split; [done | by intros [_ [? | [? _]]]].
Qed.

(** X14.  A run of the script raises in exactly one case: a restart is
    asked for, by the sidebar button or by "Play again" on the game-over
    screen, and the word list is empty.  In particular no submitted text
    makes [wordle_feedback] raise. *)
Theorem run_raises_iff (s : session) (w : widgets) :
  run s w = None
  ↔ words s = []
    ∧ (sidebar_restart w = true ∨ (game_over s = true ∧ play_again w = true)).
Proof. apply run_None_iff. Qed.

(** ** Invariants of the runs *)

(** A property of sessions holds after a run when the three steps that
    write to the session keep it. *)
Lemma run_preserves (P : session → Prop) :
  (∀ s r s', P s → restart s r = Some s' → P s') →
  (∀ s w, P s → P (set_enter_submit s w)) →
  (∀ s g s' o, P s → game_over s = false → valid_guess g = true →
               process_guess s g = Some (s', o) → P s') →
  ∀ s w s' o, P s → run s w = Some (s', o) → P s'.
Proof.
  intros Hrestart Hflag Hguess s w s' o HP. unfold run, main.
  destruct (sidebar_restart w).
  { destruct (restart s (rand w)) as [s1|] eqn:Hr; [|done].
    intros [= <- <-]. by eapply Hrestart. }
  destruct (game_over s) eqn:Hover; simpl.
  - destruct (play_again w).
    + destruct (restart s (rand w)) as [s1|] eqn:Hr; [|done].
      intros [= <- <-]. by eapply Hrestart.
    + by intros [= <- <-].
  - destruct (submitted s w); [|intros [= <- <-]; by apply Hflag].
    destruct (valid_guess (normalize (guess_text w))) eqn:Hvalid; simpl.
    + apply Hguess; [by apply Hflag | done | done].
    + intros [= <- <-]. by apply Hflag.
Qed.

Lemma reachable_preserves (P : session → Prop) :
  (∀ ws r s, init ws r = Some s → P s) →
  (∀ s r s', P s → restart s r = Some s' → P s') →
  (∀ s w, P s → P (set_enter_submit s w)) →
  (∀ s g s' o, P s → game_over s = false → valid_guess g = true →
               process_guess s g = Some (s', o) → P s') →
  ∀ s, reachable s → P s.
Proof.
  intros Hinit Hrestart Hflag Hguess s Hs.
  induction Hs as [ws r s Hi | s w s' o _ IH Hrun]; [by eapply Hinit|].
  by eapply (run_preserves P).
Qed.

Lemma init_fields ws r s :
  init ws r = Some s →
  words s = ws ∧ choose_answer ws r = Some (answer s) ∧ guesses s = []
  ∧ feedbacks s = [] ∧ keyboard s = ∅ ∧ game_over s = false.
Proof.
  unfold init. destruct (choose_answer ws r) as [a|]; [|done].
  simpl. by intros [= <-].
Qed.

Lemma restart_fields s r s' :
  restart s r = Some s' →
  words s' = words s ∧ choose_answer (words s) r = Some (answer s')
  ∧ guesses s' = [] ∧ feedbacks s' = [] ∧ keyboard s' = ∅
  ∧ game_over s' = false.
Proof.
  unfold restart. destruct (choose_answer (words s) r) as [a|]; [|done].
  simpl. by intros [= <-].
Qed.

(** What a recorded guess leaves in the session. *)
Lemma process_guess_fields s g s' o :
  valid_guess g = true → process_guess s g = Some (s', o) →
  words s' = words s ∧ answer s' = answer s
  ∧ guesses s' = guesses s ++ [g]
  ∧ feedbacks s' = feedbacks s ++ [feedback_of (chars g) (chars (answer s))]
  ∧ keyboard s'
    = update_keyboard (keyboard s) g (feedback_of (chars g) (chars (answer s)))
  ∧ (game_over s' = true
     ↔ g = answer s ∨ (MAX_GUESSES ≤ S (length (guesses s)))%nat
       ∨ game_over s = true).
Proof.
  intros Hvalid Hrun.
  destruct (process_guess_valid s g Hvalid)
    as (s1 & o1 & Hrun1 & Hw & Ha & Hgs & Hfbs & Hkb & _ & Hwon & Hlost & Hgo).
  rewrite Hrun in Hrun1. simplify_eq. repeat split; try done.
  - intros Hover. destruct (decide (g = answer s)) as [|Hne]; [by left|].
    destruct (decide (MAX_GUESSES ≤ S (length (guesses s)))%nat);
      [right; by left|].
    destruct (Hgo Hne ltac:(lia)) as [_ Hsame]. right; right. congruence.
  - intros [Heq | [Hmax | Hover]].
    + by destruct (Hwon Heq).
    + destruct (decide (g = answer s)) as [Heq|Hne];
        [by destruct (Hwon Heq) | by destruct (Hlost Hne Hmax)].
    + destruct (decide (g = answer s)) as [Heq|Hne];
        [by destruct (Hwon Heq)|].
      destruct (decide (MAX_GUESSES ≤ S (length (guesses s)))%nat) as [Hm|Hm];
        [by destruct (Hlost Hne Hm)|].
      destruct (Hgo Hne ltac:(lia)) as [_ Hsame]. congruence.
Qed.

Lemma reachable_scored s : reachable s → scored s.
Proof.
  apply reachable_preserves.
  - intros ws r s0 (_ & _ & Hg & Hf & Hk & _)%init_fields.
    unfold scored. rewrite Hg, Hf, Hk. by split; [constructor|].
  - intros s0 r s' _ (_ & _ & Hg & Hf & Hk & _)%restart_fields.
    unfold scored. rewrite Hg, Hf, Hk. by split; [constructor|].
  - by intros s0 w H.
  - intros s0 g s' o [Hrows Hkb] _ Hvalid Hrun.
    destruct (process_guess_fields _ _ _ _ Hvalid Hrun)
      as (_ & Ha & Hg & Hf & Hk & _).
    unfold scored. rewrite Ha, Hg, Hf, Hk. split.
    + apply Forall2_app; [done|]. constructor; [|constructor].
      split; [done|]. apply wordle_feedback_spec.
      rewrite (valid_guess_length g Hvalid). done.
    + rewrite zip_with_app by (by eapply Forall2_length).
      unfold update_keyboard_all. rewrite foldl_app. simpl.
      by rewrite Hkb.
Qed.

Lemma demo_last_turn_reachable : reachable demo_last_turn.
Proof.
  apply (submit_all_reachable demo_fresh _ _ _ demo_last_turn_played).
  apply (reachable_init demo_words 0). reflexivity.
Qed.

(** X15.  In every session the script can be in, there are as many
    feedbacks as guesses, every recorded guess is [WORD_LENGTH] lowercase
    letters, the feedback beside it is its score against the current
    answer, and the keyboard is what [update_keyboard] gives on the
    recorded rows in order, from an empty keyboard. *)
Theorem reachable_history_scored (s : session) :
  reachable s →
  length (feedbacks s) = length (guesses s)
  ∧ (∀ i g, guesses s !! i = Some g →
       valid_guess g = true
       ∧ feedbacks s !! i = wordle_feedback g (answer s))
  ∧ keyboard s = update_keyboard_all ∅ (zip (guesses s) (feedbacks s)).
Proof.
  intros [Hrows Hkb]%reachable_scored.
  split; [symmetry; by eapply Forall2_length|]. split; [|done].
  intros i g Hg.
  destruct (Forall2_lookup_l _ _ _ _ _ Hrows Hg) as (fb & Hfb & Hv & Hs).
  by rewrite Hfb, Hs.
Qed.

Lemma reachable_history_scored_witness :
  feedbacks demo_last_turn !! 3%nat
  = wordle_feedback "crown" (answer demo_last_turn)
  ∧ keyboard demo_last_turn
    = update_keyboard_all ∅
        (zip (guesses demo_last_turn) (feedbacks demo_last_turn)).
Proof.
  destruct (reachable_history_scored demo_last_turn demo_last_turn_reachable)
    as (_ & Hrows & Hkb).
  split; [|exact Hkb]. by destruct (Hrows 3%nat "crown" eq_refl).
Defined.

Lemma reachable_settled s : reachable s → settled s.
Proof.
  apply reachable_preserves.
  - intros ws r s0 (_ & _ & Hg & _ & _ & Hover)%init_fields.
    unfold settled, MAX_GUESSES. rewrite Hg, Hover. simpl.
    repeat split; done || lia.
  - intros s0 r s' _ (_ & _ & Hg & _ & _ & Hover)%restart_fields.
    unfold settled, MAX_GUESSES. rewrite Hg, Hover. simpl.
    repeat split; done || lia.
  - by intros s0 w H.
  - intros s0 g s' o (Hans & Hroom & _) Hover Hvalid Hrun.
    destruct (process_guess_fields _ _ _ _ Hvalid Hrun)
      as (_ & Ha & Hg & _ & _ & Hover').
    specialize (Hroom Hover).
    assert (Hold : ∀ i, guesses s0 !! i ≠ Some (answer s0)).
    { intros i Hi. destruct (Hans i Hi). congruence. }
    unfold settled. rewrite Ha, Hg, length_app. simpl. split; [|split].
    + intros i Hi. apply lookup_app_Some in Hi as [Hi | [Hlen Hi]];
        [by destruct (Hold i)|].
      apply list_lookup_singleton_Some in Hi as [Hi ->].
      split; [apply Hover'; by left | lia].
    + intros Hgo. destruct (decide (MAX_GUESSES ≤ S (length (guesses s0)))%nat)
        as [Hmax|Hmax]; [|lia].
      assert (game_over s' = true) by (apply Hover'; right; by left).
      congruence.
    + intros Hgo. apply Hover' in Hgo as [-> | [Hmax | Hgo]].
      * left. by rewrite last_snoc.
      * right. lia.
      * congruence.
Qed.

(** X16.  In every session the script can be in, the game is over exactly
    when the answer is among the guesses or [MAX_GUESSES] guesses are
    recorded, and the answer can only be the last guess. *)
Theorem reachable_game_over_iff (s : session) :
  reachable s →
  (game_over s = true
   ↔ answer s ∈ guesses s ∨ length (guesses s) = MAX_GUESSES)
  ∧ (∀ i, guesses s !! i = Some (answer s) → S i = length (guesses s)).
Proof.
  intros (Hans & Hroom & Hend)%reachable_settled. split.
  - split.
    + intros [Hlast | Hfull]%Hend; [left | by right].
      rewrite last_lookup in Hlast. by eapply list_elem_of_lookup_2.
    + intros [[i Hi]%list_elem_of_lookup | Hfull].
      * by destruct (Hans i Hi).
      * destruct (game_over s); [done|]. specialize (Hroom eq_refl). lia.
  - intros i Hi. by destruct (Hans i Hi).
Qed.

Lemma reachable_game_over_iff_witness :
  game_over demo_last_turn = true
  ↔ answer demo_last_turn ∈ guesses demo_last_turn
    ∨ length (guesses demo_last_turn) = MAX_GUESSES.
Proof.
  exact (proj1 (reachable_game_over_iff demo_last_turn
                  demo_last_turn_reachable)).
Defined.

Lemma reachable_answer_in_words s : reachable s → answer s ∈ words s.
Proof.
  revert s. apply (reachable_preserves (λ s, answer s ∈ words s)).
  - intros ws r s0 (Hw & Ha & _)%init_fields. rewrite Hw.
    by eapply choose_answer_Some.
  - intros s0 r s' _ (Hw & Ha & _)%restart_fields. rewrite Hw.
    by eapply choose_answer_Some.
  - by intros s0 w H.
  - intros s0 g s' o Hin _ Hvalid Hrun.
    destruct (process_guess_fields _ _ _ _ Hvalid Hrun) as (Hw & Ha & _).
    by rewrite Hw, Ha.
Qed.

(** X17.  In every session the script can be in, the answer is a word of
    the word list, so the list is not empty, and nothing raises: a run
    returns for any values of the widgets, and both render functions
    return. *)
Theorem reachable_never_raises (s : session) :
  reachable s →
  answer s ∈ words s
  ∧ (∀ w, is_Some (run s w))
  ∧ is_Some (render_board (guesses s) (feedbacks s))
  ∧ is_Some (render_keyboard (keyboard s)).
Proof.
  intros Hs. pose proof (reachable_answer_in_words s Hs) as Hin.
  split; [done|]. split; [|by apply reachable_renders].
  intros w. destruct (run s w) as [r|] eqn:Hrun; [by eexists|].
  apply run_None_iff in Hrun as [Hnil _]. rewrite Hnil in Hin.
  by apply elem_of_nil in Hin.
Qed.

Lemma reachable_never_raises_witness :
  is_Some (run demo_last_turn (Widgets true "tracee" true true 4))
  ∧ is_Some (render_board (guesses demo_last_turn) (feedbacks demo_last_turn)).
Proof.
  destruct (reachable_never_raises demo_last_turn demo_last_turn_reachable)
    as (_ & Hrun & Hboard & _).
  split; [apply Hrun | exact Hboard].
Defined.

(** X18.  A run never changes the word list.  Unless a restart handler
    ran, it keeps the answer and what is recorded, adding at most one
    guess with its feedback at the end, and a session whose game is over
    is left exactly as it is. *)
Theorem run_keeps_history (s s' : session) (w : widgets) (o : outcome) :
  run s w = Some (s', o) →
  words s' = words s
  ∧ (o ≠ Restarted →
     answer s' = answer s
     ∧ (guesses s' = guesses s ∧ feedbacks s' = feedbacks s
        ∧ keyboard s' = keyboard s
        ∨ ∃ g fb, guesses s' = guesses s ++ [g]
                  ∧ feedbacks s' = feedbacks s ++ [fb]
                  ∧ keyboard s' = update_keyboard (keyboard s) g fb)
     ∧ (game_over s = true → s' = s)).
Proof.
  unfold run, main.
  destruct (sidebar_restart w).
  { destruct (restart s (rand w)) as [s1|] eqn:Hr; [|done].
    intros [= <- <-]. by apply restart_fields in Hr as (Hw & _). }
  destruct (game_over s) eqn:Hover; simpl.
  - destruct (play_again w).
    + destruct (restart s (rand w)) as [s1|] eqn:Hr; [|done].
      intros [= <- <-]. by apply restart_fields in Hr as (Hw & _).
    + intros [= <- <-]. split; [done|]. intros _.
      split; [done|]. split; [by left | done].
  - destruct (submitted s w).
    2:{ intros [= <- <-]. split; [done|]. intros _.
        split; [done|]. split; [by left | done]. }
    destruct (valid_guess (normalize (guess_text w))) eqn:Hvalid; simpl.
    + intros Hrun.
      destruct (process_guess_fields _ _ _ _ Hvalid Hrun)
        as (Hw & Ha & Hg & Hf & Hk & _).
      split; [done|]. intros _. split; [done|]. split; [|done].
      right. by eexists _, _.
    + intros [= <- <-]. split; [done|]. intros _.
      split; [done|]. split; [by left | done].
Qed.

Lemma run_keeps_history_witness :
  ∃ s', submitGuess demo_last_turn "cramp" = Some (s', Lost)
        ∧ words s' = words demo_last_turn
        ∧ answer s' = answer demo_last_turn.
Proof.
  destruct (submitGuess demo_last_turn "cramp") as [[s' o]|] eqn:Hrun;
    [|by vm_compute in Hrun].
  assert (Ho : o = Lost).
  { vm_compute in Hrun. by injection Hrun as _ <-. }
  subst o.
  destruct (run_keeps_history demo_last_turn s'
              (Widgets false "cramp" true false 0) Lost Hrun) as (Hw & Hkeep).
  destruct (Hkeep ltac:(discriminate)) as (Ha & _).
  exists s'. split; [reflexivity|]. split; [exact Hw | exact Ha].
Defined.

(** ** The Enter emulation *)

Lemma process_guess_outcome s g s' o :
  valid_guess g = true → process_guess s g = Some (s', o) →
  (o = Won ∨ o = Lost ∨ o = InProgress) ∧ _enter_submit s' = _enter_submit s.
Proof.
  intros Hvalid Hrun.
  destruct (process_guess_valid s g Hvalid)
    as (s1 & o1 & Hrun1 & _ & _ & _ & _ & _ & Hflag & Hwon & Hlost & Hgo).
  rewrite Hrun in Hrun1. simplify_eq. split; [|done].
  destruct (decide (g = answer s)) as [Heq|Hne];
    [left; by destruct (Hwon Heq)|].
  destruct (decide (MAX_GUESSES ≤ S (length (guesses s)))%nat) as [Hm|Hm].
  - right; left. by destruct (Hlost Hne Hm).
  - right; right. by destruct (Hgo Hne ltac:(lia)).
Qed.

(** X19.  While the game is in progress, a run without the sidebar button
    submits the text of the guess box exactly when "Submit guess" is
    pressed, or the text has [WORD_LENGTH] characters after normalisation
    and the [_enter_submit] flag is up.  The run leaves the flag up exactly
    when the text has that length, the button was not pressed and the flag
    was down.  So an unchanged full-length text is submitted by every
    second run, and the run that follows a submission submits nothing
    unless the button is pressed. *)
Theorem enter_submit_alternates (s : session) (w : widgets) :
  sidebar_restart w = false → game_over s = false →
  ∃ s' o, run s w = Some (s', o)
    ∧ (o ≠ Idle
       ↔ submit_button w = true
         ∨ (String.length (normalize (guess_text w)) = WORD_LENGTH
            ∧ _enter_submit s = true))
    ∧ (_enter_submit s' = true
       ↔ String.length (normalize (guess_text w)) = WORD_LENGTH
         ∧ submit_button w = false ∧ _enter_submit s = false).
Proof.
  intros Hside Hover. unfold run, main. rewrite Hside, Hover. simpl.
  assert (Hsub : submitted s w = true
                 ↔ submit_button w = true
                   ∨ (String.length (normalize (guess_text w)) = WORD_LENGTH
                      ∧ _enter_submit s = true)).
  { unfold submitted.
    rewrite orb_true_iff, andb_true_iff, bool_decide_eq_true. done. }
  assert (Hflag : _enter_submit (set_enter_submit s w) = true
                  ↔ String.length (normalize (guess_text w)) = WORD_LENGTH
                    ∧ submit_button w = false ∧ _enter_submit s = false).
  { simpl. rewrite andb_true_iff, bool_decide_eq_true, negb_true_iff.
    rewrite <- not_true_iff_false, Hsub.
    destruct (submit_button w), (_enter_submit s); intuition congruence. }
  destruct (submitted s w) eqn:Hs.
  - destruct (valid_guess (normalize (guess_text w))) eqn:Hvalid; simpl.
    + destruct (process_guess_valid (set_enter_submit s w) _ Hvalid)
        as (s' & o & Hrun & _).
      destruct (process_guess_outcome _ _ _ _ Hvalid Hrun) as [Ho Hkeep].
      exists s', o. split; [done|]. rewrite Hkeep, Hflag, <- Hsub.
      split; [|done]. split; [done|]. intros _.
      destruct Ho as [-> | [-> | ->]]; done.
    + exists (set_enter_submit s w), InvalidGuess. split; [done|].
      rewrite Hflag, <- Hsub. done.
  - exists (set_enter_submit s w), Idle. split; [done|].
    rewrite Hflag, <- Hsub. split; [|done]. split; [done | congruence].
Qed.

Lemma enter_submit_alternates_witness :
  ∃ s1 s2 o,
    run demo_fresh (Widgets false "slate" false false 0) = Some (s1, Idle)
    ∧ _enter_submit s1 = true
    ∧ run s1 (Widgets false "slate" false false 0) = Some (s2, o)
    ∧ o ≠ Idle.
Proof.
  pose (w := Widgets false "slate" false false 0).
  destruct (enter_submit_alternates demo_fresh w eq_refl eq_refl)
    as (s1 & o1 & Hrun1 & Ho1 & Hflag1).
  assert (Hup : _enter_submit s1 = true).
  { apply Hflag1. by vm_compute. }
  assert (Hidle : o1 = Idle).
  { pose proof Hrun1 as H. vm_compute in H. by injection H as _ <-. }
  assert (Hover1 : game_over s1 = false).
  { pose proof Hrun1 as H. vm_compute in H. by injection H as <- _. }
  destruct (enter_submit_alternates s1 w eq_refl Hover1)
    as (s2 & o2 & Hrun2 & Ho2 & _).
  exists s1, s2, o2. subst o1. split; [exact Hrun1|]. split; [exact Hup|].
  split; [exact Hrun2|]. apply Ho2. right. split; [by vm_compute | exact Hup].
Defined.

(** ** Winning *)

Lemma lowercase_fixed ch :
  ch ∈ chars ascii_lowercase → lower_char ch = ch ∧ ascii_letter ch = true.
Proof.
  rewrite <- (bool_decide_eq_true (ch ∈ chars ascii_lowercase)).
  destruct ch as [[] [] [] [] [] [] [] []]; vm_compute; done.
Qed.

(** A valid guess is already stripped and lowercased. *)
Lemma normalize_valid g : valid_guess g = true → normalize g = g.
Proof.
  unfold valid_guess. intros [_ Hall%all_lowercase_Forall]%andb_true_iff.
  unfold normalize. rewrite strip_letters.
  - unfold lower. rewrite <- (String.string_of_list_ascii_of_string g) at 2.
    f_equal. fold (chars g). induction Hall as [|ch l Hch _ IH]; [done|].
    rewrite fmap_cons, IH. f_equal. by apply lowercase_fixed.
  - induction Hall as [|ch l Hch _ IH]; [done|]. simpl.
    rewrite IH, andb_true_r. by apply lowercase_fixed.
Qed.

(** X20.  When the word list holds only valid guesses, a game in progress
    can always be won at once: submitting the answer as it stands is
    accepted and takes the win branch. *)
Theorem answer_wins (s : session) :
  reachable s → Forall (λ w, valid_guess w = true) (words s) →
  game_over s = false →
  ∃ s', submitGuess s (answer s) = Some (s', Won)
        ∧ game_over s' = true
        ∧ guesses s' = guesses s ++ [answer s].
Proof.
  intros Hs Hwords Hover.
  assert (Hvalid : valid_guess (answer s) = true).
  { rewrite Forall_forall in Hwords.
    by apply Hwords, reachable_answer_in_words. }
  pose proof (normalize_valid _ Hvalid) as Hnorm.
  unfold submitGuess. rewrite run_submitted by done. simpl guess_text.
  rewrite Hnorm, Hvalid. simpl.
  destruct (process_guess_valid
              (set_enter_submit s (Widgets false (answer s) true false 0))
              _ Hvalid)
    as (s' & o & -> & _ & _ & Hgs & _ & _ & _ & Hwon & _).
  destruct (Hwon eq_refl) as [-> Hover']. by exists s'.
Qed.

Lemma answer_wins_witness :
  ∃ s', submitGuess demo_last_turn "crane" = Some (s', Won)
        ∧ game_over s' = true
        ∧ guesses s' = guesses demo_last_turn ++ ["crane"].
Proof.
  apply (answer_wins demo_last_turn demo_last_turn_reachable);
    [repeat constructor | reflexivity].
Defined.

(** ** The keyboard and the board *)

Lemma best_app d l1 l2 : best d (l1 ++ l2) = best (best d l1) l2.
Proof. unfold best. apply foldl_app. Qed.

Lemma best_le d m l : d ≤ m → Forall (λ x, x ≤ m) l → best d l ≤ m.
Proof.
  intros Hd Hl. revert d Hd. unfold best.
  induction Hl as [|x l Hx _ IH]; intros d Hd; simpl; [done|].
  apply IH. lia.
Qed.

Lemma best_two l : Forall is_code l → (best (-1) l = 2 ↔ 2 ∈ l).
Proof.
  intros Hcodes. split.
  - intros Hbest. destruct (best_attained (-1) l) as [Hd|Hin]; [lia|].
    by rewrite Hbest in Hin.
  - intros Hin. apply best_elem with (d := -1) in Hin.
    pose proof (best_le (-1) 2 l) as Hle.
    assert (best (-1) l ≤ 2); [|lia].
    apply Hle; [lia|]. eapply Forall_impl; [done|].
    unfold is_code. simpl. lia.
Qed.

Section KeyboardOfCalls.

Variable c : ascii.

Lemma update_keyboard_all_lookup calls : ∀ kb,
  update_keyboard_all kb calls !! c
  = match all_observed c calls with
    | [] => kb !! c
    | l => Some (best (dict_get kb c (-1)) l)
    end.
Proof.
  unfold update_keyboard_all, all_observed.
  induction calls as [|[g fb] calls IH]; intros kb; [done|].
  cbn [foldl mbind list_bind fst snd]. rewrite IH.
  unfold update_keyboard.
  rewrite update_keyboard_loop_closed, update_keyboard_loop_get_best.
  destruct (observed c (zip (chars g) fb)) as [|x l1];
    destruct (calls ≫= _) as [|y l2]; simpl; try done.
  - by rewrite app_nil_r.
  - f_equal. change (y :: l2) with ([y] ++ l2). by rewrite !best_app.
Qed.

Lemma all_observed_elem calls x :
  x ∈ all_observed c calls
  ↔ ∃ g fb i, (g, fb) ∈ calls ∧ chars g !! i = Some c ∧ fb !! i = Some x.
Proof.
  unfold all_observed, observed. rewrite list_elem_of_bind. split.
  - intros ([g fb] & Hx & Hcall). simpl in Hx.
    apply list_elem_of_omap in Hx as ([c' x'] & Hzip & Hsel). simpl in Hsel.
    case_decide; [|done]. simplify_eq.
    apply elem_of_lookup_zip_with in Hzip as (i & c' & x' & [= <- <-] & ? & ?).
    by exists g, fb, i.
  - intros (g & fb & i & Hcall & Hg & Hfb). exists (g, fb). split; [|done].
    simpl. apply list_elem_of_omap. exists (c, x). split.
    + apply elem_of_lookup_zip_with. by exists i, c, x.
    + simpl. by rewrite decide_True.
Qed.

End KeyboardOfCalls.

(** The rows of a scored session, one by one. *)
Lemma scored_rows s g fb :
  scored s →
  ((g, fb) ∈ zip (guesses s) (feedbacks s)
   ↔ ∃ k, guesses s !! k = Some g ∧ feedbacks s !! k = Some fb)
  ∧ ((g, fb) ∈ zip (guesses s) (feedbacks s) →
     length (chars g) = WORD_LENGTH
     ∧ fb = feedback_of (chars g) (chars (answer s))).
Proof.
  intros [Hrows _].
  assert (Hzip : (g, fb) ∈ zip (guesses s) (feedbacks s)
            ↔ ∃ k, guesses s !! k = Some g ∧ feedbacks s !! k = Some fb).
  { rewrite elem_of_lookup_zip_with. split.
    - intros (k & g' & fb' & [= <- <-] & ? & ?). by exists k.
    - intros (k & ? & ?). by exists k, g, fb. }
  split; [done|]. intros (k & Hg & Hfb)%Hzip.
  destruct (Forall2_lookup_l _ _ _ _ _ Hrows Hg) as (fb' & Hfb' & Hv & Hs).
  rewrite Hfb in Hfb'. simplify_eq.
  pose proof (valid_guess_length g Hv) as Hlen.
  rewrite wordle_feedback_spec in Hs by lia. simplify_eq.
  by rewrite chars_length.
Qed.

(** X21.  In every session the script can be in, a letter has a status on
    the keyboard exactly when some recorded guess holds it, and that status
    is Correct exactly when some recorded guess holds the letter at a
    position where the answer holds it. *)
Theorem keyboard_matches_board (s : session) (c : ascii) :
  reachable s →
  (is_Some (keyboard s !! c) ↔ ∃ g, g ∈ guesses s ∧ c ∈ chars g)
  ∧ (keyboard s !! c = Some 2
     ↔ ∃ g i, g ∈ guesses s ∧ chars g !! i = Some c
              ∧ chars (answer s) !! i = Some c).
Proof.
  intros Hs%reachable_scored. pose proof Hs as [Hall Hkb].
  set (calls := zip (guesses s) (feedbacks s)) in *.
  assert (Hobs : ∀ x, x ∈ all_observed c calls
            ↔ ∃ g i, g ∈ guesses s ∧ chars g !! i = Some c
                ∧ feedback_of (chars g) (chars (answer s)) !! i = Some x).
  { intros x. rewrite all_observed_elem. split.
    - intros (g & fb & i & Hcall & Hg & Hfb).
      destruct (scored_rows s g fb Hs) as [Hzip Hrow].
      destruct (Hrow Hcall) as [_ ->].
      apply Hzip in Hcall as (k & Hk & _).
      exists g, i. split; [by eapply list_elem_of_lookup_2 | done].
    - intros (g & i & [k Hk]%list_elem_of_lookup & Hg & Hfb).
      destruct (Forall2_lookup_l _ _ _ _ _ Hall Hk) as (fb & Hfbk & _).
      destruct (scored_rows s g fb Hs) as [Hzip Hrow].
      assert (Hcall : (g, fb) ∈ calls) by (apply Hzip; by exists k).
      destruct (Hrow Hcall) as [_ ->]. by eexists g, _, i. }
  assert (Hcodes : Forall is_code (all_observed c calls)).
  { apply Forall_forall. intros x (g & i & _ & _ & Hx)%Hobs.
    pose proof (feedback_of_codes (chars g) (chars (answer s))) as Hc.
    rewrite Forall_lookup in Hc. by eapply Hc. }
  rewrite Hkb, update_keyboard_all_lookup, lookup_empty.
  unfold dict_get. rewrite lookup_empty. simpl. split.
  - transitivity (∃ x, x ∈ all_observed c calls).
    { destruct (all_observed c calls) as [|x l].
      - split; [by intros [? ?] | intros [x Hx]; by apply elem_of_nil in Hx].
      - split; [intros _; exists x; by left | by eexists]. }
    split.
    + intros (x & (g & i & Hg & Hc & _)%Hobs).
      exists g. split; [done | by eapply list_elem_of_lookup_2].
    + intros (g & Hg & [i Hi]%list_elem_of_lookup).
      destruct (lookup_lt_is_Some_2
                  (feedback_of (chars g) (chars (answer s))) i) as [x Hx].
      { rewrite feedback_of_length.
        apply list_elem_of_lookup in Hg as [k Hk].
        destruct (Forall2_lookup_l _ _ _ _ _ Hall Hk) as (fb & Hfbk & _).
        destruct (scored_rows s g fb Hs) as [Hzip Hrow].
        destruct Hrow as [<- _]; [apply Hzip; by exists k|].
        by eapply lookup_lt_Some. }
      exists x. apply Hobs. by exists g, i.
  - transitivity (2 ∈ all_observed c calls).
    { rewrite <- (best_two _ Hcodes).
      destruct (all_observed c calls) as [|x l]; [by split|].
      change (best (Z.max (-1) x) l) with (best (-1) (x :: l)).
      split; [by intros [= ?] | by intros ->]. }
    rewrite Hobs. split.
    + intros (g & i & Hg & Hc & Hfb). exists g, i. split; [done|].
      split; [done|].
      apply feedback_of_two in Hfb as (x & Hx & Ha). congruence.
    + intros (g & i & Hg & Hc & Ha). exists g, i. split; [done|].
      split; [done|]. apply (feedback_of_match _ _ _ c); [|done|done].
      apply list_elem_of_lookup in Hg as [k Hk].
      destruct (Forall2_lookup_l _ _ _ _ _ Hall Hk) as (fb & Hfbk & _).
      destruct (scored_rows s g fb Hs) as [Hzip Hrow].
      destruct Hrow as [-> _]; [apply Hzip; by exists k | done].
Qed.

Lemma keyboard_matches_board_witness :
  keyboard demo_last_turn !! "n"%char = Some 2
  ∧ ¬ is_Some (keyboard demo_last_turn !! "z"%char).
Proof.
  destruct (keyboard_matches_board demo_last_turn "n" demo_last_turn_reachable)
    as [_ Hgreen].
  destruct (keyboard_matches_board demo_last_turn "z" demo_last_turn_reachable)
    as [Hseen _].
  split.
  - apply Hgreen. exists "brine", 3%nat.
    split; [apply list_elem_of_In; simpl; tauto | by split].
  - intros H. apply Hseen in H as (g & Hg & Hz).
    apply list_elem_of_In in Hg. simpl in Hg.
    destruct Hg as [<- | [<- | [<- | [<- | [<- | []]]]]];
      apply list_elem_of_In in Hz; simpl in Hz; intuition congruence.
Defined.

(** ** When the board raises *)

Lemma render_row_is_Some g fb : is_Some (render_row g fb) ↔ row_ok g fb.
Proof.
  split; [|apply render_row_ok]. intros [row Hrow].
  apply render_row_tiles in Hrow as [Hlen Htiles]. split.
  - destruct fb as [|s0 fb0] eqn:Hfb using rev_ind; [simpl; lia|].
    destruct (Htiles (length fb0) s0) as (_ & ch & _ & Hch & _).
    { by rewrite lookup_app_r, Nat.sub_diag by lia. }
    apply lookup_lt_Some in Hch. rewrite chars_length in Hch.
    rewrite length_app. simpl. lia.
  - apply Forall_lookup. intros j s Hs.
    destruct (Htiles j s Hs) as (cls & _ & Hcls & _).
    apply STATUS_TO_CLASS_is_Some. by eexists.
Qed.

(** X22.  [render_board] returns exactly when each of the first
    [MAX_GUESSES] guesses has a feedback at its index that is not longer
    than the guess and holds only 0, 1 and 2; a missing or longer feedback
    raises IndexError, another status KeyError.  Guesses past
    [MAX_GUESSES] are not looked at. *)
Theorem render_board_returns_iff (guesses : list string)
    (feedbacks : list (list Z)) :
  is_Some (render_board guesses feedbacks)
  ↔ ∀ i g, (i < MAX_GUESSES)%nat → guesses !! i = Some g →
       ∃ fb, feedbacks !! i = Some fb
             ∧ (length fb ≤ String.length g)%nat ∧ Forall is_code fb.
Proof.
  unfold render_board. rewrite mapM_is_Some, Forall_forall. split.
  - intros Hall i g Hi Hg.
    assert (Hin : i ∈ seq 0 MAX_GUESSES) by (apply elem_of_seq; lia).
    specialize (Hall i Hin). simpl in Hall.
    rewrite decide_True in Hall by (by eapply lookup_lt_Some).
    rewrite Hg in Hall. simpl in Hall.
    destruct (feedbacks !! i) as [fb|].
    + exists fb. split; [done|]. by apply render_row_is_Some.
    + by destruct Hall as [? ?].
  - intros Hall i [_ Hi]%elem_of_seq. simpl. case_decide as Hlt; [|done].
    destruct (lookup_lt_is_Some_2 guesses i Hlt) as [g Hg].
    destruct (Hall i g ltac:(lia) Hg) as (fb & Hfb & Hrow).
    rewrite Hg, Hfb. simpl. by apply render_row_is_Some.
Qed.

Lemma render_board_returns_iff_witness :
  is_Some (render_board ["crane"] [[2; 2; 2; 2; 2]; [7]])
  ∧ ¬ is_Some (render_board ["crane"] [])
  ∧ ¬ is_Some (render_board ["crane"] [[2; 2; 2; 2; 2; 0]])
  ∧ ¬ is_Some (render_board ["crane"] [[2; 2; 3; 2; 2]]).
Proof.
  split; [|split; [|split]].
  - apply (render_board_returns_iff ["crane"] [[2; 2; 2; 2; 2]; [7]]).
    intros [|i] g Hi Hg; [|done]. simpl in Hg. injection Hg as <-.
    exists [2; 2; 2; 2; 2]. split; [done|]. split; [simpl; lia|].
    repeat constructor; right; by right.
  - intros H.
    destruct (proj1 (render_board_returns_iff ["crane"] []) H 0%nat "crane")
      as (fb & Hfb & _); [vm_compute; lia | done | done].
  - intros H.
    destruct (proj1 (render_board_returns_iff ["crane"] [[2; 2; 2; 2; 2; 0]])
                H 0%nat "crane") as (fb & Hfb & Hlen & _);
      [vm_compute; lia | done |].
    injection Hfb as <-. simpl in Hlen. lia.
  - intros H.
    destruct (proj1 (render_board_returns_iff ["crane"] [[2; 2; 3; 2; 2]])
                H 0%nat "crane") as (fb & Hfb & _ & Hcodes);
      [vm_compute; lia | done |].
    injection Hfb as <-. rewrite Forall_lookup in Hcodes.
    destruct (Hcodes 2%nat 3 eq_refl) as [? | [? | ?]]; done.
Defined.
